(** * An interactive particle Christmas tree: gesture bridge, scene model,
      physics integrator, depth-sorted renderer and interaction controller.

    The development embeds [services/gestureService.ts] (function
    [detectGesture]), [components/ChristmasTree.tsx] (the resize and asset
    effects, particle and photo creation, [updatePhysics], the drawable
    list of [draw] and the calls it makes on the 2D context,
    [handleInteraction], [onMouseDown] and the gesture effect) and the
    [photos] state of [App.tsx].

    Number model.  A JavaScript [number] is modelled by an exact rational
    ([Q]): [+], [-], [*] and [/] are the field operations and the
    comparisons are decided exactly; IEEE rounding, NaN and the infinities
    are outside the model.  The functions of the JavaScript runtime
    ([Math.sqrt], [Math.cos], [Math.sin], [Math.acos], [Math.pow],
    [Math.random], [Number.prototype.toString]) are not code of the
    repository: they are parameters of the development.  *)

From Stdlib Require Import QArith Qabs Qround ZArith List String Bool Lia Lqa.
From Stdlib Require Import Sorting.Sorted Sorting.Permutation DecimalString.
Import ListNotations.

Open Scope Q_scope.

(** ** JavaScript operators on numbers *)

Definition Qleb (a b : Q) : bool := Qle_bool a b.
Definition Qltb (a b : Q) : bool := negb (Qle_bool b a).
Definition Qgeb (a b : Q) : bool := Qleb b a.
Definition Qgtb (a b : Q) : bool := Qltb b a.

Infix "<=?" := Qleb (at level 70, no associativity) : Q_scope.
Infix "<?" := Qltb (at level 70, no associativity) : Q_scope.
Infix ">=?" := Qgeb (at level 70, no associativity) : Q_scope.
Infix ">?" := Qgtb (at level 70, no associativity) : Q_scope.

Definition Math_max (a b : Q) : Q := if a <? b then b else a.
Definition Math_floor (a : Q) : Z := Qfloor a.
Definition ofNat (n : nat) : Q := inject_Z (Z.of_nat n).

(** Exceptions: [None] stands for a thrown [TypeError]. *)
Definition bind {A B : Type} (m : option A) (k : A -> option B) : option B :=
  match m with
  | Some a => k a
  | None => None
  end.

Notation "x <- m ;; k" := (bind m (fun x => k))
  (at level 61, m at next level, right associativity).

(** [arr[i]] for an index computed as a number: [undefined] out of range. *)
Definition index {A : Type} (arr : list A) (i : Z) : option A :=
  if (i <? 0)%Z then None else nth_error arr (Z.to_nat i).

(** Truthiness of a [string | null]: [null] and the empty string are falsy. *)
Definition truthy (s : option string) : bool :=
  match s with
  | Some s => negb (String.eqb s EmptyString)
  | None => false
  end.

(** [ref === id] for a [string | null] against a [string]. *)
Definition strictEq (ref : option string) (id : string) : bool :=
  match ref with
  | Some s => String.eqb s id
  | None => false
  end.

(** ** Array.prototype.sort

    The sort of ECMAScript 2019 is stable, and for a consistent comparator
    the result is ordered: [cmp a b <= 0] for [a] before [b].  A stable
    insertion sort computes that (unique) result. *)

Fixpoint insertBy {A : Type} (cmp : A -> A -> Q) (a : A) (l : list A) : list A :=
  match l with
  | [] => [a]
  | b :: l' => if cmp a b <=? 0 then a :: l else b :: insertBy cmp a l'
  end.

Definition Array_sort {A : Type} (cmp : A -> A -> Q) (l : list A) : list A :=
  fold_right (insertBy cmp) [] l.

(** The comparator ranks [x] and [y] equal. *)
Definition tied {A : Type} (cmp : A -> A -> Q) (x y : A) : bool :=
  (cmp x y <=? 0) && (cmp y x <=? 0).

(** ** types.ts *)

Inductive ParticleType : Type := FLOWER | GIFT | SPARKLE.

Definition ParticleType_eqb (a b : ParticleType) : bool :=
  match a, b with
  | FLOWER, FLOWER | GIFT, GIFT | SPARKLE, SPARKLE => true
  | _, _ => false
  end.

Inductive GestureType : Type :=
  NONE | OPEN_PALM | CLOSED_FIST | PINCH | POINTING.

Definition GestureType_eqb (a b : GestureType) : bool :=
  match a, b with
  | NONE, NONE | OPEN_PALM, OPEN_PALM | CLOSED_FIST, CLOSED_FIST
  | PINCH, PINCH | POINTING, POINTING => true
  | _, _ => false
  end.

Module Point3D.
Record t : Type := mk { x : Q; y : Q; z : Q }.
End Point3D.

Module HandLandmark.
Record t : Type := mk { x : Q; y : Q; z : Q }.
End HandLandmark.

Module Cursor.
Record t : Type := mk { x : Q; y : Q }.
End Cursor.

Record GestureResult : Type := mkGestureResult {
  gesture : GestureType;
  cursor : option Cursor.t
}.

(** ** The hand-tracking model (MediaPipe), seen through its interface:
       [detectForVideo(video, timestamp)] and the [landmarks] of its result,
       one list of landmarks per detected hand. *)

Record HandLandmarkerResult : Type := mkResult {
  landmarks : option (list (list HandLandmark.t))
}.

Record HandLandmarkerOn (Video : Type) : Type := mkHandLandmarker {
  detectForVideo : Video -> Q -> HandLandmarkerResult
}.

Arguments mkHandLandmarker {Video} _.
Arguments detectForVideo {Video} _ _ _.

Module Particle.
Record t : Type := mk {
  id : nat;
  type : ParticleType;
  x : Q; y : Q; z : Q;
  baseX : Q; baseY : Q; baseZ : Q;
  targetX : Q; targetY : Q; targetZ : Q;
  color : option string;
  size : Q;
  variant : Z;
  twinklePhase : Q;
  twinkleSpeed : Q
}.

(** The three assignments [p.x += ..; p.y += ..; p.z += ..]. *)
Definition setPosition (p : t) (x' y' z' : Q) : t :=
  mk (id p) (type p) x' y' z' (baseX p) (baseY p) (baseZ p)
     (targetX p) (targetY p) (targetZ p) (color p) (size p) (variant p)
     (twinklePhase p) (twinkleSpeed p).
End Particle.

Module HTMLImageElement.
Record t : Type := mk { src : string; width : Q; height : Q }.
End HTMLImageElement.

Module PhotoObject.
Record t : Type := mk {
  id : string;
  img : HTMLImageElement.t;
  width : Q;
  height : Q;
  aspectRatio : Q;
  x : Q; y : Q; z : Q;
  baseX : Q; baseY : Q; baseZ : Q;
  targetX : Q; targetY : Q; targetZ : Q;
  opacity : Q
}.

(** The four assignments to [p.x], [p.y], [p.z] and [p.opacity]. *)
Definition setPositionOpacity (p : t) (x' y' z' o' : Q) : t :=
  mk (id p) (img p) (width p) (height p) (aspectRatio p) x' y' z'
     (baseX p) (baseY p) (baseZ p) (targetX p) (targetY p) (targetZ p) o'.
End PhotoObject.

(** ** The browser objects the component reads *)

Module Canvas.
(** [width], [height]: the drawing buffer; [context2d]: whether
    [getContext('2d')] gives a context; the other four fields: the
    rectangle of [getBoundingClientRect()]. *)
Record t : Type := mk {
  width : Q; height : Q;
  context2d : bool;
  rectLeft : Q; rectTop : Q; rectWidth : Q; rectHeight : Q
}.
End Canvas.

Module Dimensions.
Record t : Type := mk { height : Q; radius : Q }.
End Dimensions.

(** ** The state of the component: its refs, its state hooks and the
       [isExploded] state of [App] that it reads as a prop and writes through
       [onToggleExplode]; [randomCalls] counts the draws of [Math.random]. *)

Record Scene : Type := mkScene {
  particlesRef : list Particle.t;
  photoObjectsRef : list PhotoObject.t;
  rotationRef : Q;
  zoomedPhotoIdRef : option string;
  isExploded : bool;
  canvasRef : option Canvas.t;
  dimensions : Dimensions.t;
  isMobile : bool;
  randomCalls : nat
}.

Definition onToggleExplode (exploded : bool) (st : Scene) : Scene :=
  mkScene (particlesRef st) (photoObjectsRef st) (rotationRef st)
          (zoomedPhotoIdRef st) exploded (canvasRef st) (dimensions st)
          (isMobile st) (randomCalls st).

Definition setZoomedPhotoId (zoomed : option string) (st : Scene) : Scene :=
  mkScene (particlesRef st) (photoObjectsRef st) (rotationRef st)
          zoomed (isExploded st) (canvasRef st) (dimensions st)
          (isMobile st) (randomCalls st).

Definition initialScene : Scene :=
  mkScene [] [] 0 None false None (Dimensions.mk 600 220) false 0.

(** ** Config *)

Definition GOLDEN_PALETTE : list string :=
  ["#FFD700"; "#FDB931"; "#E5E4E2"; "#DAA520"; "#CD7F32"; "#FFF8DC"]%string.

Definition GIFT_PAIRS : list (string * string) :=
  [("#c0392b", "#f1c40f"); ("#166534", "#dc2626");
   ("#ecf0f1", "#d35400"); ("#6b21a8", "#f3e8ff")]%string.

Definition STAR_RADIUS : Q := 35.
Definition STAR_DEPTH : Q := 10.
Definition FOCAL_LENGTH : Q := 800.
Definition PARTICLE_COUNT (isMobile : bool) : nat :=
  if isMobile then 1200%nat else 1500%nat.

(** The items of [allObjects] in [draw]; a star face carries its fill colour
    as the triple of [rgb(r,g,0)]. *)
Inductive DrawItem : Type :=
| ItemParticle (obj : Particle.t) (rx ry rz sortZ : Q)
| ItemPhoto (obj : PhotoObject.t) (rx ry rz sortZ : Q)
| ItemStarFace (v0 v1 v2 : Point3D.t) (color : Z * Z * Z) (sortZ : Q).

Definition sortZ (item : DrawItem) : Q :=
  match item with
  | ItemParticle _ _ _ _ s => s
  | ItemPhoto _ _ _ _ s => s
  | ItemStarFace _ _ _ _ s => s
  end.

(** ** App.tsx: the [photos] state of [App] and the component under it *)

Module App.
Record t : Type := mk {
  photos : list HTMLImageElement.t;
  tree : Scene
}.
End App.

(** ** Sprites and the 2D context

    A sprite canvas is identified by the arguments of the function that
    rasterized it ([createGoldenSprite], [createGiftSprite]); its bitmap is
    not modelled.  [spritesRef] is a JavaScript object used as a map from
    string keys; the keys of the component never name an inherited
    property. *)

Inductive Sprite : Type :=
| GoldenSprite (color : string)
| GiftSprite (boxColor ribbonColor : string).

Definition createGoldenSprite (color : string) : Sprite := GoldenSprite color.

Definition createGiftSprite (boxColor ribbonColor : string) : Sprite :=
  GiftSprite boxColor ribbonColor.

Definition SpriteMap : Type := list (string * Sprite).

(** [map[key] = v] and [map[key]]. *)
Fixpoint setProp (map : SpriteMap) (key : string) (v : Sprite) : SpriteMap :=
  match map with
  | [] => [(key, v)]
  | (k, w) :: map' =>
    if String.eqb k key then (k, v) :: map' else (k, w) :: setProp map' key v
  end.

Fixpoint getProp (map : SpriteMap) (key : string) : option Sprite :=
  match map with
  | [] => None
  | (k, w) :: map' => if String.eqb k key then Some w else getProp map' key
  end.

(** [`${n}`] for an integer [n], and for a [string | undefined]. *)
Definition integerToString (n : Z) : string :=
  NilZero.string_of_int (Z.to_int n).

Definition stringOrUndefined (s : option string) : string :=
  match s with
  | Some s => s
  | None => "undefined"
  end.

(** The effect that initializes the assets: the value of [spritesRef]. *)
Definition initSprites : SpriteMap :=
  let map :=
    fold_left
      (fun map c => setProp map ("gold-" ++ c) (createGoldenSprite c))
      GOLDEN_PALETTE [] in
  fold_left
    (fun map '(idx, gift) =>
       setProp map ("gift-" ++ integerToString (Z.of_nat idx))
               (createGiftSprite (fst gift) (snd gift)))
    (combine (seq 0 (List.length GIFT_PAIRS)) GIFT_PAIRS) map.

(** A fill or stroke style: a CSS colour string, or the [rgb(r,g,b)] that
    [draw] builds for a star face. *)
Inductive Style : Type :=
| Css (color : string)
| Rgb (r g b : Z).

(** The calls and assignments that [draw] makes on the 2D context. *)
Inductive CanvasOp : Type :=
| ClearRect (x y w h : Q)
| SetGlobalCompositeOperation (v : string)
| SetGlobalAlpha (v : Q)
| SetFillStyle (v : Style)
| SetStrokeStyle (v : Style)
| SetStrokeStyleToFillStyle
| SetLineWidth (v : Q)
| SetShadowBlur (v : Q)
| SetShadowColor (v : string)
| DrawSprite (sprite : Sprite) (x y w h : Q)
| DrawImage (img : HTMLImageElement.t) (x y w h : Q)
| BeginPath
| ClosePath
| MoveTo (x y : Q)
| LineTo (x y : Q)
| Arc (x y radius startAngle endAngle : Q)
| Rect (x y w h : Q)
| Fill
| Stroke
| StrokeRect (x y w h : Q)
| Clip
| Save
| Restore.

(** The part of the drawing state of a 2D context that the assignments to
    [globalAlpha], [shadowBlur] and [globalCompositeOperation] write, with
    the stack of [save()].  As the HTML standard has it, an alpha outside
    [[0, 1]], a negative blur and an unknown composite operation are
    ignored, and [restore()] on an empty stack does nothing. *)
Record DrawingState : Type := mkDrawingState {
  globalAlpha : Q;
  shadowBlur : Q;
  globalCompositeOperation : string
}.

Definition defaultDrawingState : DrawingState :=
  mkDrawingState 1 0 "source-over".

Definition compositeOperations : list string :=
  ["source-over"; "source-in"; "source-out"; "source-atop";
   "destination-over"; "destination-in"; "destination-out";
   "destination-atop"; "lighter"; "copy"; "xor"; "multiply"; "screen";
   "overlay"; "darken"; "lighten"; "color-dodge"; "color-burn";
   "hard-light"; "soft-light"; "difference"; "exclusion"; "hue";
   "saturation"; "color"; "luminosity"]%string.

Definition applyOp (s : DrawingState * list DrawingState) (op : CanvasOp)
  : DrawingState * list DrawingState :=
  let (now, stack) := s in
  match op with
  | SetGlobalAlpha v =>
    if (0 <=? v) && (v <=? 1)
    then (mkDrawingState v (shadowBlur now) (globalCompositeOperation now),
          stack)
    else s
  | SetShadowBlur v =>
    if 0 <=? v
    then (mkDrawingState (globalAlpha now) v (globalCompositeOperation now),
          stack)
    else s
  | SetGlobalCompositeOperation v =>
    if existsb (String.eqb v) compositeOperations
    then (mkDrawingState (globalAlpha now) (shadowBlur now) v, stack)
    else s
  | Save => (now, now :: stack)
  | Restore =>
    match stack with
    | [] => s
    | saved :: stack' => (saved, stack')
    end
  | _ => s
  end.

Definition applyOps (ops : list CanvasOp) (s : DrawingState * list DrawingState)
  : DrawingState * list DrawingState :=
  fold_left applyOp ops s.

(** Every sprite of [ops], run from [s], is drawn at full alpha and without
    a shadow. *)
Fixpoint spritesDrawnPlain (ops : list CanvasOp)
    (s : DrawingState * list DrawingState) : Prop :=
  match ops with
  | [] => True
  | op :: ops' =>
    match op with
    | DrawSprite _ _ _ _ _ =>
      globalAlpha (fst s) == 1 /\ shadowBlur (fst s) == 0
    | _ => True
    end
    /\ spritesDrawnPlain ops' (applyOp s op)
  end.

(** ** A sample runtime, for running the model on concrete inputs: square
       root rounded down to six decimals, cosine and sine by their Taylor
       polynomials of degree 12 and 13. *)

Definition sqrt6 (a : Q) : Q :=
  Z.sqrt (Qfloor (a * 1000000000000)) # 1000000.

Definition cosT (a : Q) : Q :=
  1 - a^2/2 + a^4/24 - a^6/720 + a^8/40320 - a^10/3628800 + a^12/479001600.

Definition sinT (a : Q) : Q :=
  a - a^3/6 + a^5/120 - a^7/5040 + a^9/362880 - a^11/39916800
  + a^13/6227020800.

Definition samplePI : Q := 3.141592653589793.

(** Further sample functions of the runtime: the arc cosine and the power
    by their series, a stream of draws in [[0, 1)] and the base-36
    rendering of one draw. *)
Definition acosT (a : Q) : Q :=
  samplePI / 2 - (a + a^3/6 + 3 * a^5/40).

Definition powT (a b : Q) : Q :=
  1 + b * (a - 1) + b * (b - 1) / 2 * (a - 1)^2.

Definition sampleRandom (n : nat) : Q :=
  Z.of_nat ((n * 37) mod 100) # 100.

Definition sampleToString36 (a : Q) : string := "0.4fzyo82mvyr".

(** ** Sample inputs *)

(** A hand of 21 landmarks: the wrist at (0.5, 0.8), the four fingertips
    (landmarks 8, 12, 16, 20) at distance [spread] above it, the thumb tip
    (landmark 4) at distance [pinch] beside the index tip. *)
Definition sampleHand (pinch spread : Q) : list HandLandmark.t :=
  let wrist := HandLandmark.mk 0.5 0.8 0 in
  let tip := HandLandmark.mk 0.5 (0.8 - spread) 0 in
  let thumb := HandLandmark.mk (0.5 + pinch) (0.8 - spread) 0 in
  [wrist; wrist; wrist; wrist; thumb; wrist; wrist; wrist; tip;
   wrist; wrist; wrist; tip; wrist; wrist; wrist; tip;
   wrist; wrist; wrist; tip].

(** A model that reports the given hands for every frame. *)
Definition sampleLandmarker (hands : option (list (list HandLandmark.t)))
  : HandLandmarkerOn unit :=
  mkHandLandmarker (fun _ _ => mkResult hands).

Definition sampleImage : HTMLImageElement.t :=
  HTMLImageElement.mk "photo.jpg" 640 640.

(** A square photo at [(x, y, z)] with rest position at the origin. *)
Definition samplePhoto (id : string) (x y z targetX targetY targetZ opacity : Q)
  : PhotoObject.t :=
  PhotoObject.mk id sampleImage 120 120 1 x y z 0 0 0
                 targetX targetY targetZ opacity.

Definition sampleParticle : Particle.t :=
  Particle.mk 0 FLOWER 10 (-20) 30 10 (-20) 30 400 0 300
              (Some "#FFD700"%string) 0.5 0 0 0.003.

Definition sampleCanvas : Canvas.t := Canvas.mk 800 600 true 0 0 800 600.

(** Exploded, photo [a] zoomed and arrived at the zoom position, photo [b]
    pushed away; the rotation stopped at 0.3. *)
Definition photoA : PhotoObject.t :=
  samplePhoto "a" 0 0 (-550) 150 100 200 1.
Definition photoB : PhotoObject.t :=
  samplePhoto "b" 0 0 0 100 200 100 0.
Definition zoomedScene : Scene :=
  mkScene [sampleParticle] [photoA; photoB] 0.3 (Some "a"%string) true
          (Some sampleCanvas) (Dimensions.mk 600 220) false 0.

(** Exploded, nothing zoomed, rotation 0: two fully opaque photos that
    overlap on screen, the second one nearer to the viewer. *)
Definition photoFar : PhotoObject.t :=
  samplePhoto "far" 0 0 100 0 0 100 1.
Definition photoNear : PhotoObject.t :=
  samplePhoto "near" 10 0 (-100) 10 0 (-100) 1.
Definition overlapScene : Scene :=
  mkScene [sampleParticle] [photoFar; photoNear] 0 None true
          (Some sampleCanvas) (Dimensions.mk 600 220) false 0.

(** Exploded, nothing zoomed, rotation 0: one photo at the scene centre
    whose opacity is exactly one half. *)
Definition photoHalf : PhotoObject.t :=
  samplePhoto "half" 0 0 0 0 0 0 0.5.
Definition halfOpaqueScene : Scene :=
  mkScene [] [photoHalf] 0 None true
          (Some sampleCanvas) (Dimensions.mk 600 220) false 0.

(** Collapsed, the one particle at its rest position. *)
Definition restScene : Scene :=
  mkScene [sampleParticle] [] 0 None false
          (Some sampleCanvas) (Dimensions.mk 600 220) false 0.

(** Just exploded, nothing zoomed: one photo still at the origin and fully
    transparent. *)
Definition photoHidden : PhotoObject.t :=
  samplePhoto "new" 0 0 0 150 100 200 0.
Definition explodedScene : Scene :=
  mkScene [sampleParticle] [photoHidden] 0 None true
          (Some sampleCanvas) (Dimensions.mk 600 220) false 0.

(** A hand of one landmark, and the sample hand seen at another depth. *)
Definition shortHand : list HandLandmark.t := [HandLandmark.mk 0.5 0.8 0].
Definition deepHand (pinch spread : Q) : list HandLandmark.t :=
  map (fun l => HandLandmark.mk (HandLandmark.x l) (HandLandmark.y l) 1)
      (sampleHand pinch spread).

Section Program.

(** The JavaScript runtime. *)
Variable HTMLVideoElement : Type.
Variable Math_sqrt : Q -> Q.
Variable Math_cos : Q -> Q.
Variable Math_sin : Q -> Q.
Variable Math_acos : Q -> Q.
Variable Math_pow : Q -> Q -> Q.
Variable Math_PI : Q.
(** [Math_random n] is the value of the [n]-th call of [Math.random()]. *)
Variable Math_random : nat -> Q.
(** [toString36 a] is [a.toString(36)]. *)
Variable toString36 : Q -> string.

(** *** services/gestureService.ts *)

Definition HandLandmarker : Type := HandLandmarkerOn HTMLVideoElement.

(** [detectGesture]; [handLandmarker] is the module-level variable and
    [now] the value of [performance.now()]. *)
Definition detectGesture (handLandmarker : option HandLandmarker) (now : Q)
    (video : HTMLVideoElement) : option GestureResult :=
  match handLandmarker with
  | None => Some (mkGestureResult NONE None)
  | Some hl =>
    let startTimeMs := now in
    let results := detectForVideo hl video startTimeMs in
    match landmarks results with
    | Some (landmarks0 :: _) =>
      thumbTip <- nth_error landmarks0 4 ;;
      indexTip <- nth_error landmarks0 8 ;;
      middleTip <- nth_error landmarks0 12 ;;
      ringTip <- nth_error landmarks0 16 ;;
      pinkyTip <- nth_error landmarks0 20 ;;
      wrist <- nth_error landmarks0 0 ;;
      let tips := [indexTip; middleTip; ringTip; pinkyTip] in
      let avgTipDistToWrist :=
        fold_left
          (fun acc tip =>
             let d := Math_sqrt
                        ((HandLandmark.x tip - HandLandmark.x wrist) ^ 2
                         + (HandLandmark.y tip - HandLandmark.y wrist) ^ 2) in
             acc + d)
          tips 0 / 4 in
      let thumbIndexDist :=
        Math_sqrt
          ((HandLandmark.x thumbTip - HandLandmark.x indexTip) ^ 2
           + (HandLandmark.y thumbTip - HandLandmark.y indexTip) ^ 2) in
      let cursor :=
        Cursor.mk (HandLandmark.x indexTip) (HandLandmark.y indexTip) in
      if thumbIndexDist <? 0.05 then
        Some (mkGestureResult PINCH (Some cursor))
      else if avgTipDistToWrist <? 0.25 then
        Some (mkGestureResult CLOSED_FIST (Some cursor))
      else if avgTipDistToWrist >? 0.4 then
        Some (mkGestureResult OPEN_PALM (Some cursor))
      else
        Some (mkGestureResult POINTING (Some cursor))
    | _ => Some (mkGestureResult NONE None)
    end
  end.

(** The Euclidean distance of two landmarks in the normalized image
    plane, and the classification policy in the words of the
    specification: four cases in priority order over the thumb-to-index
    distance [pinch] and the mean fingertip-to-wrist distance [spread]. *)
Definition planarDist (a b : HandLandmark.t) : Q :=
  Math_sqrt ((HandLandmark.x a - HandLandmark.x b) ^ 2
             + (HandLandmark.y a - HandLandmark.y b) ^ 2).

Definition classified (pinch spread : Q) (g : GestureType) : Prop :=
  (pinch < 0.05 /\ g = PINCH)
  \/ (~ pinch < 0.05 /\ spread < 0.25 /\ g = CLOSED_FIST)
  \/ (~ pinch < 0.05 /\ ~ spread < 0.25 /\ 0.4 < spread /\ g = OPEN_PALM)
  \/ (~ pinch < 0.05 /\ ~ spread < 0.25 /\ ~ 0.4 < spread /\ g = POINTING).

(** *** components/ChristmasTree.tsx: the star model *)

Definition starRing (i : nat) : list Point3D.t :=
  let innerRadius := STAR_RADIUS * 0.4 in
  let angle := (ofNat i * 72 - 18) * Math_PI / 180 in
  let angleInner := (ofNat i * 72 + 18) * Math_PI / 180 in
  [Point3D.mk (Math_cos angle * STAR_RADIUS) (Math_sin angle * STAR_RADIUS) 0;
   Point3D.mk (Math_cos angleInner * innerRadius)
              (Math_sin angleInner * innerRadius) 0].

Definition starFan (i : nat) : list (nat * nat * nat) :=
  let outer := (2 + i * 2)%nat in
  let inner := (2 + i * 2 + 1)%nat in
  let nextOuter := (2 + ((i + 1) mod 5) * 2)%nat in
  [(0, outer, inner); (0, inner, nextOuter);
   (1, inner, outer); (1, nextOuter, inner)]%nat.

(** [createStarModel()]: its [vertices] and its [faces]. *)
Definition createStarModel : list Point3D.t * list (nat * nat * nat) :=
  ([Point3D.mk 0 0 STAR_DEPTH; Point3D.mk 0 0 (- STAR_DEPTH)]
     ++ flat_map starRing (seq 0 5),
   flat_map starFan (seq 0 5)).

Definition STAR_MODEL := createStarModel.

(** *** Math.random as a state monad over the count of draws *)

Definition Rand (A : Type) : Type := nat -> A * nat.
Definition ret {A : Type} (a : A) : Rand A := fun n => (a, n).
Definition bindR {A B : Type} (m : Rand A) (k : A -> Rand B) : Rand B :=
  fun n => let (a, n') := m n in k a n'.
Definition random : Rand Q := fun n => (Math_random n, S n).

Notation "x <~ m ;; k" := (bindR m (fun x => k))
  (at level 61, m at next level, right associativity).

(** *** Particle initialization: the body of the [for] loop *)

(** The type logic: the [if (rand < 0.10) .. else if (rand < 0.18) ..
    else ..] that overwrites the defaults [type = 'FLOWER'], [color0],
    [size0] and [variant = 0]; each branch makes one more draw. *)
Definition particleKind (mobile : bool) (rand : Q) (color0 : option string)
    (size0 : Q) : Rand (ParticleType * option string * Q * Z) :=
  let type := FLOWER in
  let variant := 0%Z in
  if rand <? 0.10 then
    s <~ random ;;
    ret (SPARKLE, Some "#FFFFFF"%string, 0.3 + s * 0.5, variant)
  else if rand <? 0.18 then
    g <~ random ;;
    ret (GIFT, color0, (if mobile then 0.7 else 0.9),
         Math_floor (g * ofNat (List.length GIFT_PAIRS)))
  else
    s <~ random ;;
    ret (type, color0,
         (if mobile then 0.35 + s * 0.5 else 0.4 + s * 0.6), variant).

Definition newParticle (dims : Dimensions.t) (mobile : bool) (i : nat)
  : Rand Particle.t :=
  let treeHeight := Dimensions.height dims in
  let treeRadius := Dimensions.radius dims in
  let t := ofNat i / ofNat (PARTICLE_COUNT mobile) in
  let angle := t * 60 * Math_PI in
  let y := t * treeHeight - treeHeight / 2 in
  let radius := Math_pow t 0.9 * treeRadius in
  jitter <~ random ;;
  let r := radius + (jitter - 0.5) * (if mobile then 25 else 45) in
  let x := r * Math_cos angle in
  let z := r * Math_sin angle in
  u <~ random ;;
  let targetDist :=
    (if mobile then 250 else 450) + u * (if mobile then 200 else 300) in
  v <~ random ;;
  let targetTheta := v * Math_PI * 2 in
  w <~ random ;;
  let targetPhi := Math_acos (w * 2 - 1) in
  rand <~ random ;;
  c <~ random ;;
  let color0 :=
    index GOLDEN_PALETTE
          (Math_floor (c * ofNat (List.length GOLDEN_PALETTE))) in
  s <~ random ;;
  let size0 := 0.5 + s * 0.5 in
  kind <~ particleKind mobile rand color0 size0 ;;
  let '(type, color, size, variant) := kind in
  phase <~ random ;;
  speed <~ random ;;
  ret (Particle.mk i type x y z x y z
         (targetDist * Math_sin targetPhi * Math_cos targetTheta)
         (targetDist * Math_sin targetPhi * Math_sin targetTheta)
         (targetDist * Math_cos targetPhi)
         color size variant
         (phase * Math_PI * 2) (0.003 + speed * 0.004)).

(** [for (let i = 0; i < PARTICLE_COUNT; i++) newParticles.push(..)],
    from index [i] with [k] iterations left. *)
Fixpoint newParticles (dims : Dimensions.t) (mobile : bool) (k i : nat)
  : Rand (list Particle.t) :=
  match k with
  | O => ret []
  | S k' =>
    p <~ newParticle dims mobile i ;;
    ps <~ newParticles dims mobile k' (S i) ;;
    ret (p :: ps)
  end.

(** The resize handler of the first effect followed by the particle
    effect that the new [dimensions] object triggers. *)
Definition handleResize (innerWidth : Q) (canvas : option Canvas.t)
    (st : Scene) : Scene :=
  let mobile := innerWidth <? 768 in
  let dims := Dimensions.mk (if mobile then 400 else 600)
                            (if mobile then 140 else 220) in
  let (ps, n) :=
    newParticles dims mobile (PARTICLE_COUNT mobile) 0 (randomCalls st) in
  mkScene ps (photoObjectsRef st) (rotationRef st) (zoomedPhotoIdRef st)
          (isExploded st) canvas dims mobile n.

(** *** Sync Photos: the effect on the [photos] prop *)

Definition newPhoto (img : HTMLImageElement.t) : Rand PhotoObject.t :=
  u <~ random ;;
  let targetDist := 200 + u * 150 in
  v <~ random ;;
  let theta := v * Math_PI * 2 in
  w <~ random ;;
  let phi := Math_acos (w * 2 - 1) in
  r <~ random ;;
  ret (PhotoObject.mk
         (substring 2 9 (toString36 r))
         img
         120
         (120 * (HTMLImageElement.height img / HTMLImageElement.width img))
         (HTMLImageElement.width img / HTMLImageElement.height img)
         0 0 0
         0 0 0
         (targetDist * Math_sin phi * Math_cos theta)
         (targetDist * Math_sin phi * Math_sin theta)
         (targetDist * Math_cos phi)
         0).

(** [newImgs.forEach(img => photoObjectsRef.current.push(..))] *)
Fixpoint pushPhotos (newImgs : list HTMLImageElement.t)
    (objs : list PhotoObject.t) : Rand (list PhotoObject.t) :=
  match newImgs with
  | [] => ret objs
  | img :: rest =>
    p <~ newPhoto img ;;
    pushPhotos rest (objs ++ [p])
  end.

Definition syncPhotos (photos : list HTMLImageElement.t) (st : Scene)
  : Scene :=
  if (List.length photos =? 0)%nat then
    mkScene (particlesRef st) [] (rotationRef st) None (isExploded st)
            (canvasRef st) (dimensions st) (isMobile st) (randomCalls st)
  else if (List.length (photoObjectsRef st) <? List.length photos)%nat then
    let newImgs := skipn (List.length (photoObjectsRef st)) photos in
    let (objs, n) := pushPhotos newImgs (photoObjectsRef st) (randomCalls st) in
    mkScene (particlesRef st) objs (rotationRef st) (zoomedPhotoIdRef st)
            (isExploded st) (canvasRef st) (dimensions st) (isMobile st) n
  else st.

(** *** updatePhysics *)

Definition ease : Q := 0.05.

(** [v += (target - v) * ease] *)
Definition easeToward (target v : Q) : Q := v + (target - v) * ease.

Definition updateParticle (exploded : bool) (p : Particle.t) : Particle.t :=
  let tx := if exploded then Particle.targetX p else Particle.baseX p in
  let ty := if exploded then Particle.targetY p else Particle.baseY p in
  let tz := if exploded then Particle.targetZ p else Particle.baseZ p in
  Particle.setPosition p
    (easeToward tx (Particle.x p))
    (easeToward ty (Particle.y p))
    (easeToward tz (Particle.z p)).

(** The [tx, ty, tz, targetOpacity] that the photo loop resolves. *)
Definition photoTarget (zoomed : option string) (exploded : bool)
    (p : PhotoObject.t) : Q * Q * Q * Q :=
  if strictEq zoomed (PhotoObject.id p) then
    (0, 0, - FOCAL_LENGTH + 250, 1)
  else if truthy zoomed then
    (PhotoObject.targetX p * 3, PhotoObject.targetY p * 3,
     PhotoObject.targetZ p, 0)
  else
    (if exploded then PhotoObject.targetX p else PhotoObject.baseX p,
     if exploded then PhotoObject.targetY p else PhotoObject.baseY p,
     if exploded then PhotoObject.targetZ p else PhotoObject.baseZ p,
     if exploded then 1 else 0).

Definition updatePhoto (zoomed : option string) (exploded : bool)
    (p : PhotoObject.t) : PhotoObject.t :=
  let '(tx, ty, tz, targetOpacity) := photoTarget zoomed exploded p in
  PhotoObject.setPositionOpacity p
    (easeToward tx (PhotoObject.x p))
    (easeToward ty (PhotoObject.y p))
    (easeToward tz (PhotoObject.z p))
    (easeToward targetOpacity (PhotoObject.opacity p)).

Definition updatePhysics (st : Scene) : Scene :=
  let rotation :=
    if negb (truthy (zoomedPhotoIdRef st)) then
      rotationRef st + (if isExploded st then 0.001 else 0.003)
    else rotationRef st in
  mkScene
    (map (updateParticle (isExploded st)) (particlesRef st))
    (map (updatePhoto (zoomedPhotoIdRef st) (isExploded st))
         (photoObjectsRef st))
    rotation (zoomedPhotoIdRef st) (isExploded st) (canvasRef st)
    (dimensions st) (isMobile st) (randomCalls st).

(** *** draw: the list [allObjects] and its order of drawing *)

Definition particleItem (cos sin : Q) (p : Particle.t) : DrawItem :=
  let rx := Particle.x p * cos - Particle.z p * sin in
  let rz := Particle.z p * cos + Particle.x p * sin in
  ItemParticle p rx (Particle.y p) rz rz.

Definition photoItem (zoomed : option string) (cos sin : Q)
    (p : PhotoObject.t) : DrawItem :=
  if strictEq zoomed (PhotoObject.id p) then
    ItemPhoto p (PhotoObject.x p) (PhotoObject.y p) (PhotoObject.z p)
              (PhotoObject.z p)
  else
    let rx := PhotoObject.x p * cos - PhotoObject.z p * sin in
    let rz := PhotoObject.z p * cos + PhotoObject.x p * sin in
    let ry := PhotoObject.y p in
    ItemPhoto p rx ry rz rz.

Definition transformVert (cos sin starY : Q) (v : Point3D.t) : Point3D.t :=
  let rvx := Point3D.x v * cos - Point3D.z v * sin in
  let rvz := Point3D.z v * cos + Point3D.x v * sin in
  let rvy := Point3D.y v + starY in
  Point3D.mk rvx rvy rvz.

(** One iteration of [STAR_MODEL.faces.forEach]. *)
Definition starFaceItem (transformedVerts : list Point3D.t)
    (face : nat * nat * nat) : option DrawItem :=
  let '(f0, f1, f2) := face in
  v0 <- nth_error transformedVerts f0 ;;
  v1 <- nth_error transformedVerts f1 ;;
  v2 <- nth_error transformedVerts f2 ;;
  let ux := Point3D.x v1 - Point3D.x v0 in
  let uy := Point3D.y v1 - Point3D.y v0 in
  let uz := Point3D.z v1 - Point3D.z v0 in
  let vx := Point3D.x v2 - Point3D.x v0 in
  let vy := Point3D.y v2 - Point3D.y v0 in
  let vz := Point3D.z v2 - Point3D.z v0 in
  let nx := uy * vz - uz * vy in
  let ny := uz * vx - ux * vz in
  let nz := ux * vy - uy * vx in
  let len := Math_sqrt (nx * nx + ny * ny + nz * nz) in
  let nxn := nx / len in
  let nyn := ny / len in
  let nzn := nz / len in
  let dot := (nxn * - 0.5 + nyn * - 0.5 + nzn * - 0.8)
             / Math_sqrt (0.5 * 0.5 + 0.5 * 0.5 + 0.8 * 0.8) in
  let brightness := Math_max 0.4 ((dot + 1) / 2) in
  let r := Math_floor (255 * brightness) in
  let g := Math_floor (215 * brightness) in
  let avgZ := (Point3D.z v0 + Point3D.z v1 + Point3D.z v2) / 3 in
  Some (ItemStarFace v0 v1 v2 (r, g, 0%Z) avgZ).

Fixpoint starFaceItems (transformedVerts : list Point3D.t)
    (faces : list (nat * nat * nat)) : option (list DrawItem) :=
  match faces with
  | [] => Some []
  | face :: rest =>
    item <- starFaceItem transformedVerts face ;;
    items <- starFaceItems transformedVerts rest ;;
    Some (item :: items)
  end.

(** [allObjects] before the sort. *)
Definition allObjects (st : Scene) : option (list DrawItem) :=
  let cos := Math_cos (rotationRef st) in
  let sin := Math_sin (rotationRef st) in
  let particles := map (particleItem cos sin) (particlesRef st) in
  let photos :=
    map (photoItem (zoomedPhotoIdRef st) cos sin) (photoObjectsRef st) in
  if negb (truthy (zoomedPhotoIdRef st)) then
    let starY := - Dimensions.height (dimensions st) / 2 - 20 in
    let transformedVerts :=
      map (transformVert cos sin starY) (fst STAR_MODEL) in
    faces <- starFaceItems transformedVerts (snd STAR_MODEL) ;;
    Some (particles ++ photos ++ faces)
  else Some (particles ++ photos).

(** [draw] up to the [forEach] that paints: the items in drawing order.
    Without a canvas or without its 2D context nothing is drawn. *)
Definition draw (st : Scene) : option (list DrawItem) :=
  match canvasRef st with
  | None => Some []
  | Some canvas =>
    if negb (Canvas.context2d canvas) then Some []
    else
      items <- allObjects st ;;
      Some (Array_sort (fun a b => sortZ b - sortZ a) items)
  end.

(** *** handleInteraction *)

(** The rotated depth that orders the candidates. *)
Definition rotatedDepth (cos sin : Q) (p : PhotoObject.t) : Q :=
  PhotoObject.z p * cos + PhotoObject.x p * sin.

(** The body of the [for (const p of candidates)] loop up to its [if]:
    [false] both when the loop [continue]s and when the test fails. *)
Definition hits (cx cy cos sin inputX inputY : Q) (p : PhotoObject.t)
  : bool :=
  let rx := PhotoObject.x p * cos - PhotoObject.z p * sin in
  let ry := PhotoObject.y p in
  let rz := PhotoObject.z p * cos + PhotoObject.x p * sin in
  let scale := FOCAL_LENGTH / (FOCAL_LENGTH + rz) in
  if scale <=? 0 then false
  else
    let x2d := rx * scale + cx in
    let y2d := ry * scale + cy in
    let w := PhotoObject.width p * scale in
    let h := PhotoObject.height p * scale in
    (inputX >=? x2d - w / 2) && (inputX <=? x2d + w / 2)
    && (inputY >=? y2d - h / 2) && (inputY <=? y2d + h / 2).

(** The loop: the value of [clickedId] when it ends. *)
Fixpoint clickedId (cx cy cos sin inputX inputY : Q)
    (candidates : list PhotoObject.t) : option string :=
  match candidates with
  | [] => None
  | p :: rest =>
    if hits cx cy cos sin inputX inputY p then Some (PhotoObject.id p)
    else clickedId cx cy cos sin inputX inputY rest
  end.

(** [candidates] after the [filter] and the [sort]. *)
Definition candidates (cos sin : Q) (photos : list PhotoObject.t)
  : list PhotoObject.t :=
  Array_sort (fun a b => rotatedDepth cos sin a - rotatedDepth cos sin b)
             (filter (fun p => PhotoObject.opacity p >? 0.5) photos).

Definition handleInteraction (inputX inputY : Q) (isRightClick : bool)
    (st : Scene) : Scene :=
  if isRightClick then
    setZoomedPhotoId None (onToggleExplode false st)
  else if negb (isExploded st) then
    onToggleExplode true st
  else if truthy (zoomedPhotoIdRef st) then
    setZoomedPhotoId None st
  else
    match canvasRef st with
    | None => st
    | Some canvas =>
      let cx := Canvas.width canvas / 2 in
      let cy := Canvas.height canvas / 2 in
      let cos := Math_cos (rotationRef st) in
      let sin := Math_sin (rotationRef st) in
      let clicked :=
        clickedId cx cy cos sin inputX inputY
                  (candidates cos sin (photoObjectsRef st)) in
      if truthy clicked then setZoomedPhotoId clicked st else st
    end.

(** [onMouseDown]: [button] is [e.button]. *)
Definition onMouseDown (clientX clientY : Q) (button : Z) (st : Scene)
  : Scene :=
  match canvasRef st with
  | None => st
  | Some canvas =>
    handleInteraction (clientX - Canvas.rectLeft canvas)
                      (clientY - Canvas.rectTop canvas)
                      (button =? 2)%Z st
  end.

(** The effect on [currentGesture], [gestureCursor] and [isExploded]:
    three [if]s in sequence, all reading the [isExploded] of the render. *)
Definition gestureEffect (currentGesture : GestureType)
    (gestureCursor : option Cursor.t) (st : Scene) : Scene :=
  let exploded := isExploded st in
  let st1 :=
    if GestureType_eqb currentGesture OPEN_PALM && negb exploded
    then onToggleExplode true st else st in
  let st2 :=
    if GestureType_eqb currentGesture CLOSED_FIST
    then setZoomedPhotoId None (onToggleExplode false st1) else st1 in
  if GestureType_eqb currentGesture PINCH then
    match gestureCursor, canvasRef st2 with
    | Some c, Some canvas =>
      handleInteraction ((1 - Cursor.x c) * Canvas.rectWidth canvas)
                        (Cursor.y c * Canvas.rectHeight canvas) false st2
    | _, _ => st2
    end
  else st2.

(** *** The component as a transition system *)

Inductive Event : Type :=
| Tick
| MouseDown (clientX clientY : Q) (button : Z)
| GestureChanged (currentGesture : GestureType)
                 (gestureCursor : option Cursor.t)
| PhotosChanged (photos : list HTMLImageElement.t)
| WindowResize (innerWidth : Q) (canvas : option Canvas.t).

(** [tick] is [updatePhysics(); draw();] and [draw] writes no state. *)
Definition step (st : Scene) (e : Event) : Scene :=
  match e with
  | Tick => updatePhysics st
  | MouseDown clientX clientY button => onMouseDown clientX clientY button st
  | GestureChanged g c => gestureEffect g c st
  | PhotosChanged photos => syncPhotos photos st
  | WindowResize innerWidth canvas => handleResize innerWidth canvas st
  end.

Definition run (st : Scene) (events : list Event) : Scene :=
  fold_left step events st.

(** The factor by which [n] easing steps shrink a distance: [0.95 ^ n]. *)
Fixpoint decay (n : nat) : Q :=
  match n with
  | O => 1
  | S n' => 0.95 * decay n'
  end.

(** [n] physics steps in a row. *)
Definition frames (n : nat) (st : Scene) : Scene :=
  Nat.iter n updatePhysics st.

(** *** draw: what the [forEach] over the sorted items paints *)

Definition project (cx cy : Q) (v : Point3D.t) : Q * Q :=
  (Point3D.x v * (FOCAL_LENGTH / (FOCAL_LENGTH + Point3D.z v)) + cx,
   Point3D.y v * (FOCAL_LENGTH / (FOCAL_LENGTH + Point3D.z v)) + cy).

(** One iteration of [allObjects.forEach]: [time] is [Date.now()], [cx]
    and [cy] the centre of the canvas.  The [drawImage] of a photo sits in a
    [try] with an empty [catch]: the call is made, and the calls after it
    are made whether it throws or not. *)
Definition paintItem (sprites : SpriteMap) (zoomed : option string)
    (time cx cy : Q) (item : DrawItem) : list CanvasOp :=
  match item with
  | ItemParticle p rx ry rz _ =>
    let scale := FOCAL_LENGTH / (FOCAL_LENGTH + rz) in
    if scale <=? 0 then []
    else
      let x2d := rx * scale + cx in
      let y2d := ry * scale + cy in
      match Particle.type p with
      | FLOWER =>
        match getProp sprites ("gold-" ++ stringOrUndefined (Particle.color p)) with
        | Some sprite =>
          let size := 32 * Particle.size p * scale in
          [SetGlobalCompositeOperation "lighter";
           DrawSprite sprite (x2d - size / 2) (y2d - size / 2) size size;
           SetGlobalCompositeOperation "source-over"]
        | None => []
        end
      | GIFT =>
        match getProp sprites ("gift-" ++ integerToString (Particle.variant p)) with
        | Some sprite =>
          let size := 36 * Particle.size p * scale in
          [DrawSprite sprite (x2d - size / 2) (y2d - size / 2) size size]
        | None => []
        end
      | SPARKLE =>
        let opacity :=
          0.3 + 0.7 * Math_sin (time * Particle.twinkleSpeed p
                                + Particle.twinklePhase p) in
        if opacity >? 0 then
          let size := 8 * Particle.size p * scale in
          [SetGlobalAlpha opacity;
           SetFillStyle (Css "#FFFFFF");
           BeginPath;
           MoveTo x2d (y2d - size);
           LineTo (x2d + size / 2) y2d;
           LineTo x2d (y2d + size);
           LineTo (x2d - size / 2) y2d;
           Fill;
           SetShadowBlur (15 * scale);
           SetShadowColor "white";
           BeginPath;
           Arc x2d y2d (size / 3) 0 (Math_PI * 2);
           Fill;
           SetShadowBlur 0;
           SetGlobalAlpha 1]
        else []
      end
  | ItemStarFace v0 v1 v2 color sortZ =>
    let scale := FOCAL_LENGTH / (FOCAL_LENGTH + sortZ) in
    if scale <=? 0 then []
    else
      let p0 := project cx cy v0 in
      let p1 := project cx cy v1 in
      let p2 := project cx cy v2 in
      let '(r, g, b) := color in
      [BeginPath;
       MoveTo (fst p0) (snd p0);
       LineTo (fst p1) (snd p1);
       LineTo (fst p2) (snd p2);
       ClosePath;
       SetShadowBlur 20;
       SetShadowColor "rgba(255, 215, 0, 0.5)";
       SetFillStyle (Rgb r g b);
       Fill;
       SetShadowBlur 0;
       SetStrokeStyle (Css "rgba(255, 255, 200, 0.5)");
       SetLineWidth 0.5;
       Stroke]
  | ItemPhoto p rx ry rz _ =>
    let scale := FOCAL_LENGTH / (FOCAL_LENGTH + rz) in
    if scale <=? 0 then []
    else
      let x2d := rx * scale + cx in
      let y2d := ry * scale + cy in
      if PhotoObject.opacity p <? 0.01 then []
      else
        let isZoomed := strictEq zoomed (PhotoObject.id p) in
        let w := PhotoObject.width p * scale * (if isZoomed then 1.5 else 1) in
        let h := PhotoObject.height p * scale * (if isZoomed then 1.5 else 1) in
        [SetGlobalAlpha (PhotoObject.opacity p);
         SetStrokeStyle (Css (if isZoomed then "#fbbf24" else "#e2e8f0"));
         SetLineWidth (if isZoomed then 6 else 2 * scale);
         SetShadowColor "rgba(0,0,0,0.5)";
         SetShadowBlur (20 * scale);
         StrokeRect (x2d - w / 2) (y2d - h / 2) w h;
         Save;
         BeginPath;
         Rect (x2d - w / 2) (y2d - h / 2) w h;
         Clip;
         DrawImage (PhotoObject.img p) (x2d - w / 2) (y2d - h / 2) w h;
         Restore;
         SetShadowBlur 0;
         SetGlobalAlpha 1]
  end.

(** The cursor marker that [draw] paints last. *)
Definition paintCursor (canvas : Canvas.t) (gestureCursor : option Cursor.t)
    (currentGesture : GestureType) : list CanvasOp :=
  match gestureCursor with
  | Some c =>
    let gx := (1 - Cursor.x c) * Canvas.width canvas in
    let gy := Cursor.y c * Canvas.height canvas in
    [BeginPath;
     Arc gx gy 8 0 (Math_PI * 2);
     SetFillStyle
       (Css (if GestureType_eqb currentGesture PINCH then "#fbbf24"
             else if GestureType_eqb currentGesture OPEN_PALM then "#22c55e"
                  else "rgba(255, 255, 255, 0.9)"));
     Fill;
     BeginPath;
     Arc gx gy 14 0 (Math_PI * 2);
     SetStrokeStyleToFillStyle;
     SetLineWidth 2;
     Stroke]
  | None => []
  end.

(** The whole of [draw], as the calls it makes on the context. *)
Definition paint (sprites : SpriteMap) (time : Q)
    (gestureCursor : option Cursor.t) (currentGesture : GestureType)
    (st : Scene) : option (list CanvasOp) :=
  match canvasRef st with
  | None => Some []
  | Some canvas =>
    if negb (Canvas.context2d canvas) then Some []
    else
      let cx := Canvas.width canvas / 2 in
      let cy := Canvas.height canvas / 2 in
      items <- allObjects st ;;
      let sorted := Array_sort (fun a b => sortZ b - sortZ a) items in
      Some (ClearRect 0 0 (Canvas.width canvas) (Canvas.height canvas)
              :: flat_map (paintItem sprites (zoomedPhotoIdRef st) time cx cy)
                          sorted
              ++ paintCursor canvas gestureCursor currentGesture)
  end.

(** *** App.tsx: the photos state and the component under it *)

Inductive AppEvent : Type :=
| ImageLoaded (img : HTMLImageElement.t)
| ClearClicked
| AnimationFrame
| CanvasMouseDown (clientX clientY : Q) (button : Z)
| GestureResultChanged (currentGesture : GestureType)
                       (gestureCursor : option Cursor.t)
| WindowResized (innerWidth : Q) (canvas : option Canvas.t).

(** [setPhotos(prev => [...prev, img])] and [setPhotos([])], each followed
    by the photo effect of the component on the new prop. *)
Definition appStep (app : App.t) (e : AppEvent) : App.t :=
  match e with
  | ImageLoaded img =>
    let photos' := App.photos app ++ [img] in
    App.mk photos' (syncPhotos photos' (App.tree app))
  | ClearClicked => App.mk [] (syncPhotos [] (App.tree app))
  | AnimationFrame => App.mk (App.photos app) (step (App.tree app) Tick)
  | CanvasMouseDown clientX clientY button =>
    App.mk (App.photos app)
           (step (App.tree app) (MouseDown clientX clientY button))
  | GestureResultChanged g c =>
    App.mk (App.photos app) (step (App.tree app) (GestureChanged g c))
  | WindowResized innerWidth canvas =>
    App.mk (App.photos app)
           (step (App.tree app) (WindowResize innerWidth canvas))
  end.

Definition initialApp : App.t := App.mk [] initialScene.

Definition appRun (app : App.t) (events : list AppEvent) : App.t :=
  fold_left appStep events app.

(** ** Specification vocabulary *)

(** The kind that the specification assigns to a uniform draw. *)
Definition kindOfDraw (rand : Q) (k : ParticleType) : Prop :=
  (rand < 0.10 /\ k = SPARKLE)
  \/ (0.10 <= rand /\ rand < 0.18 /\ k = GIFT)
  \/ (0.18 <= rand /\ k = FLOWER).

(** The kind that the type logic gives to the draw [rand], the grid of
    the [m] equally spaced values [0/m .. (m-1)/m] of a uniform draw, and
    the number of items of one kind. *)
Definition drawnKind (rand : Q) : ParticleType :=
  fst (fst (fst (fst (particleKind false rand None 0 0%nat)))).

Definition uniformGrid (m : nat) : list Q :=
  map (fun k => ofNat k / ofNat m) (seq 0 m).

Definition countKind (k : ParticleType) (l : list ParticleType) : nat :=
  List.length (filter (ParticleType_eqb k) l).

(** [p'] is [p] after one easing step of its position toward
    [(tx, ty, tz)] and of its opacity toward [o]. *)
Definition photoEasedToward (tx ty tz o : Q) (p p' : PhotoObject.t) : Prop :=
  PhotoObject.x p' = easeToward tx (PhotoObject.x p)
  /\ PhotoObject.y p' = easeToward ty (PhotoObject.y p)
  /\ PhotoObject.z p' = easeToward tz (PhotoObject.z p)
  /\ PhotoObject.opacity p' = easeToward o (PhotoObject.opacity p).

(** The creation-time attributes of a particle and of a photo. *)
Definition particleCreation (p : Particle.t) :=
  (Particle.id p, Particle.type p,
   (Particle.baseX p, Particle.baseY p, Particle.baseZ p),
   (Particle.targetX p, Particle.targetY p, Particle.targetZ p),
   Particle.color p, Particle.size p, Particle.variant p,
   Particle.twinklePhase p, Particle.twinkleSpeed p).

Definition photoCreation (p : PhotoObject.t) :=
  (PhotoObject.id p, PhotoObject.img p,
   PhotoObject.width p, PhotoObject.height p, PhotoObject.aspectRatio p,
   (PhotoObject.baseX p, PhotoObject.baseY p, PhotoObject.baseZ p),
   (PhotoObject.targetX p, PhotoObject.targetY p, PhotoObject.targetZ p)).

Definition opacityInRange (p : PhotoObject.t) : Prop :=
  0 <= PhotoObject.opacity p /\ PhotoObject.opacity p <= 1.


(** [item] is the drawable of the star face [face] over the rotated
    vertices [verts]: its three vertices, tagged with the average of their
    z-values. *)
Definition isStarFaceOf (verts : list Point3D.t) (face : nat * nat * nat)
    (item : DrawItem) : Prop :=
  exists v0 v1 v2 color,
    nth_error verts (fst (fst face)) = Some v0
    /\ nth_error verts (snd (fst face)) = Some v1
    /\ nth_error verts (snd face) = Some v2
    /\ item = ItemStarFace v0 v1 v2 color
                ((Point3D.z v0 + Point3D.z v1 + Point3D.z v2) / 3).

(** Orders on keys: ascending rotated depth, descending sort depth. *)
Definition nearerOrEqual (cos sin : Q) (a b : PhotoObject.t) : Prop :=
  rotatedDepth cos sin a <= rotatedDepth cos sin b.

Definition fartherOrEqual (a b : DrawItem) : Prop := sortZ b <= sortZ a.

(** The part of a landmark that [detectGesture] reads, and a hand moved
    by [(dx, dy)] in the image plane. *)
Definition planar (l : HandLandmark.t) : Q * Q :=
  (HandLandmark.x l, HandLandmark.y l).

Definition translate (dx dy : Q) (l : HandLandmark.t) : HandLandmark.t :=
  HandLandmark.mk (HandLandmark.x l + dx) (HandLandmark.y l + dy)
                  (HandLandmark.z l).

Definition translateCursor (dx dy : Q) (c : Cursor.t) : Cursor.t :=
  Cursor.mk (Cursor.x c + dx) (Cursor.y c + dy).

(** The ranges of the attributes of a particle made for size class
    [mobile]: a colour of the palette (white for a sparkle), a size in the
    range of its kind, a variant that indexes [GIFT_PAIRS] (0 unless a
    gift), a twinkle speed in [[0.003, 0.007)]. *)
Definition particleAttributesInRange (mobile : bool) (p : Particle.t) : Prop :=
  0.003 <= Particle.twinkleSpeed p /\ Particle.twinkleSpeed p < 0.007
  /\ match Particle.type p with
     | SPARKLE =>
       Particle.color p = Some "#FFFFFF"%string
       /\ 0.3 <= Particle.size p /\ Particle.size p < 0.8
       /\ Particle.variant p = 0%Z
     | GIFT =>
       (exists c, Particle.color p = Some c /\ In c GOLDEN_PALETTE)
       /\ Particle.size p = (if mobile then 0.7 else 0.9)
       /\ (0 <= Particle.variant p < Z.of_nat (List.length GIFT_PAIRS))%Z
     | FLOWER =>
       (exists c, Particle.color p = Some c /\ In c GOLDEN_PALETTE)
       /\ (if mobile then 0.35 else 0.4) <= Particle.size p
       /\ Particle.size p < (if mobile then 0.85 else 1)
       /\ Particle.variant p = 0%Z
     end.

(** [p] is the photo object made for [img]: at the origin, its rest
    position, fully transparent, 120 wide and as high as the aspect ratio
    of the image asks. *)
Definition freshPhotoOf (img : HTMLImageElement.t) (p : PhotoObject.t) : Prop :=
  PhotoObject.img p = img
  /\ PhotoObject.width p = 120
  /\ PhotoObject.height p
     = 120 * (HTMLImageElement.height img / HTMLImageElement.width img)
  /\ (PhotoObject.x p, PhotoObject.y p, PhotoObject.z p) = (0, 0, 0)
  /\ (PhotoObject.baseX p, PhotoObject.baseY p, PhotoObject.baseZ p) = (0, 0, 0)
  /\ PhotoObject.opacity p = 0.

(** The zoomed id, when set, is the non-empty id of a photo of the scene. *)
Definition zoomedIsLive (st : Scene) : Prop :=
  forall id,
    zoomedPhotoIdRef st = Some id ->
    id <> EmptyString
    /\ exists p, In p (photoObjectsRef st) /\ PhotoObject.id p = id.

(** A photo is zoomed only while the scene is exploded. *)
Definition zoomOnlyWhenExploded (st : Scene) : Prop :=
  zoomedPhotoIdRef st <> None -> isExploded st = true.

(** An event that cannot explode the tree: a frame, a change of photos, a
    resize, a click of the secondary button, a gesture other than OPEN_PALM
    and PINCH. *)
Definition quiet (e : Event) : Prop :=
  match e with
  | MouseDown _ _ button => button = 2%Z
  | GestureChanged g _ => g <> OPEN_PALM /\ g <> PINCH
  | _ => True
  end.

(** A photo hidden at the centre of the tree: fully transparent, at the
    origin, which is its rest position. *)
Definition hiddenAtCentre (p : PhotoObject.t) : Prop :=
  PhotoObject.x p == 0 /\ PhotoObject.y p == 0 /\ PhotoObject.z p == 0
  /\ PhotoObject.opacity p == 0
  /\ PhotoObject.baseX p == 0 /\ PhotoObject.baseY p == 0
  /\ PhotoObject.baseZ p == 0.

(** A particle at its rest position, and two particles at the same place. *)
Definition particleAtRest (p : Particle.t) : Prop :=
  Particle.x p == Particle.baseX p /\ Particle.y p == Particle.baseY p
  /\ Particle.z p == Particle.baseZ p.

Definition samePlace (p p' : Particle.t) : Prop :=
  Particle.x p' == Particle.x p /\ Particle.y p' == Particle.y p
  /\ Particle.z p' == Particle.z p.

(** Everything of the scene but its mode (the explode flag and the zoomed
    id) is the same in [st] and [st']. *)
Definition sameWorld (st st' : Scene) : Prop :=
  particlesRef st' = particlesRef st
  /\ photoObjectsRef st' = photoObjectsRef st
  /\ rotationRef st' = rotationRef st
  /\ canvasRef st' = canvasRef st
  /\ dimensions st' = dimensions st
  /\ isMobile st' = isMobile st
  /\ randomCalls st' = randomCalls st.

(** Two drawables that the comparator of [draw] ranks equal, and two photos
    that the comparator of the hit test ranks equal. *)
Definition sameSortDepth (a b : DrawItem) : bool :=
  tied (fun a b => sortZ b - sortZ a) a b.

Definition sameRotatedDepth (cos sin : Q) (a b : PhotoObject.t) : bool :=
  tied (fun a b => rotatedDepth cos sin a - rotatedDepth cos sin b) a b.

(** The photo objects of the component mirror the [photos] state of
    [App]: one object per image, in the order of arrival. *)
Definition photosMirrored (app : App.t) : Prop :=
  map PhotoObject.img (photoObjectsRef (App.tree app)) = App.photos app.

(** Every particle of the scene has its attributes in the range of the
    current size class. *)
Definition particlesInRange (st : Scene) : Prop :=
  Forall (particleAttributesInRange (isMobile st)) (particlesRef st).

(** ** Properties *)

(** *** Comparisons *)

Ltac qlra := unfold Qdiv in *; lra.

Lemma Qltb_lt (a b : Q) : (a <? b) = true <-> a < b.
Proof.
  unfold Qltb. rewrite negb_true_iff, <- not_true_iff_false, Qle_bool_iff.
  split; intro H; [apply Qnot_le_lt | apply Qlt_not_le]; exact H.
Qed.

Lemma Qltb_nlt (a b : Q) : (a <? b) = false <-> ~ a < b.
Proof.
  rewrite <- Qltb_lt, not_true_iff_false. reflexivity.
Qed.

Lemma Qleb_le (a b : Q) : (a <=? b) = true <-> a <= b.
Proof. apply Qle_bool_iff. Qed.

Lemma Qleb_nle (a b : Q) : (a <=? b) = false <-> b < a.
Proof.
  unfold Qleb. rewrite <- not_true_iff_false, Qle_bool_iff.
  split; intro H; [apply Qnot_le_lt | apply Qlt_not_le]; exact H.
Qed.

(** *** The gesture bridge *)

Lemma nth_error_of_length {A : Type} (l : list A) (n i : nat) :
  List.length l = n -> (i < n)%nat -> exists a, nth_error l i = Some a.
Proof.
  intros Hlen Hi.
  destruct (nth_error l i) as [a|] eqn:E; [now exists a|].
  apply nth_error_None in E. lia.
Qed.

(** C1.  A detected hand (the first of [results.landmarks], with its 21
    landmarks) is classified by priority: PINCH when the thumb-tip to
    index-tip distance is below 0.05; otherwise CLOSED_FIST when the mean
    distance of the four fingertips to the wrist is below 0.25; otherwise
    OPEN_PALM when that mean is above 0.4; otherwise POINTING; the cursor
    is the (x, y) of the index fingertip.  With no detected hand, and with
    no model loaded, the result is NONE with a null cursor.  Distances are
    taken in the normalized image plane, as the code computes them. *)
Theorem detectGesture_classification
    (hl : HandLandmarker) (now : Q) (video : HTMLVideoElement) :
  (forall hand rest,
      landmarks (detectForVideo hl video now) = Some (hand :: rest) ->
      List.length hand = 21%nat ->
      exists thumb index middle ring pinky wrist g,
        nth_error hand 4 = Some thumb
        /\ nth_error hand 8 = Some index
        /\ nth_error hand 12 = Some middle
        /\ nth_error hand 16 = Some ring
        /\ nth_error hand 20 = Some pinky
        /\ nth_error hand 0 = Some wrist
        /\ detectGesture (Some hl) now video
           = Some (mkGestureResult g
                     (Some (Cursor.mk (HandLandmark.x index)
                                      (HandLandmark.y index))))
        /\ classified (planarDist thumb index)
                      ((planarDist index wrist + planarDist middle wrist
                        + planarDist ring wrist + planarDist pinky wrist) / 4)
                      g)
  /\ (landmarks (detectForVideo hl video now) = None
      \/ landmarks (detectForVideo hl video now) = Some [] ->
      detectGesture (Some hl) now video = Some (mkGestureResult NONE None))
  /\ detectGesture None now video = Some (mkGestureResult NONE None).
Proof.
  split; [|split].
  - intros hand rest Hres Hlen.
    destruct (nth_error_of_length hand 21 4 Hlen) as [thumb Ht]; [lia|].
    destruct (nth_error_of_length hand 21 8 Hlen) as [index Hi]; [lia|].
    destruct (nth_error_of_length hand 21 12 Hlen) as [middle Hm]; [lia|].
    destruct (nth_error_of_length hand 21 16 Hlen) as [ring Hr]; [lia|].
    destruct (nth_error_of_length hand 21 20 Hlen) as [pinky Hp]; [lia|].
    destruct (nth_error_of_length hand 21 0 Hlen) as [wrist Hw]; [lia|].
    exists thumb, index, middle, ring, pinky, wrist.
    unfold detectGesture. rewrite Hres, Ht, Hi, Hm, Hr, Hp, Hw.
    cbn [bind fold_left].
    fold (planarDist thumb index) (planarDist index wrist)
         (planarDist middle wrist) (planarDist ring wrist)
         (planarDist pinky wrist).
    generalize (planarDist thumb index) (planarDist index wrist)
               (planarDist middle wrist) (planarDist ring wrist)
               (planarDist pinky wrist).
    intros pinch d1 d2 d3 d4.
    destruct (pinch <? 0.05) eqn:E1.
    { exists PINCH. repeat (split; [reflexivity|]).
      left. split; [now apply Qltb_lt | reflexivity]. }
    apply Qltb_nlt in E1.
    destruct ((0 + d1 + d2 + d3 + d4) / 4 <? 0.25) eqn:E2.
    { exists CLOSED_FIST. repeat (split; [reflexivity|]).
      right; left. apply Qltb_lt in E2.
      repeat split; [exact E1 | qlra]. }
    apply Qltb_nlt in E2. unfold Qgtb.
    destruct (0.4 <? (0 + d1 + d2 + d3 + d4) / 4) eqn:E3.
    { exists OPEN_PALM. repeat (split; [reflexivity|]).
      right; right; left. apply Qltb_lt in E3.
      split; [exact E1 | split; [qlra | split; [qlra | reflexivity]]]. }
    apply Qltb_nlt in E3.
    exists POINTING. repeat (split; [reflexivity|]).
    right; right; right.
    split; [exact E1 | split; [qlra | split; [qlra | reflexivity]]].
  - intros [H | H]; unfold detectGesture; rewrite H; reflexivity.
  - reflexivity.
Qed.

(** *** Easing *)

Lemma easeToward_gap (target v : Q) :
  target - easeToward target v == 0.95 * (target - v).
Proof. unfold easeToward, ease. ring. Qed.

Lemma easeToward_below (target v : Q) :
  v <= target -> v <= easeToward target v /\ easeToward target v <= target.
Proof. unfold easeToward, ease. intros H. split; lra. Qed.

Lemma easeToward_above (target v : Q) :
  target <= v -> target <= easeToward target v /\ easeToward target v <= v.
Proof. unfold easeToward, ease. intros H. split; lra. Qed.

Lemma easeToward_distance (target v : Q) :
  Qabs (target - easeToward target v) == 0.95 * Qabs (target - v).
Proof.
  rewrite easeToward_gap, Qabs_Qmult.
  rewrite (Qabs_pos 0.95) by lra. reflexivity.
Qed.

Lemma iter_easeToward_below (target v : Q) (n : nat) :
  v <= target -> Nat.iter n (easeToward target) v <= target.
Proof.
  intros H. induction n as [|n IH]; simpl Nat.iter; [exact H|].
  now apply easeToward_below.
Qed.

Lemma iter_easeToward_above (target v : Q) (n : nat) :
  target <= v -> target <= Nat.iter n (easeToward target) v.
Proof.
  intros H. induction n as [|n IH]; simpl Nat.iter; [exact H|].
  now apply easeToward_above.
Qed.

Lemma iter_easeToward_distance (target v : Q) (n : nat) :
  Qabs (target - Nat.iter n (easeToward target) v)
  == decay n * Qabs (target - v).
Proof.
  induction n as [|n IH]; simpl Nat.iter; cbn [decay]; [ring|].
  rewrite easeToward_distance, IH. ring.
Qed.

Lemma decay_pos (n : nat) : 0 < decay n.
Proof.
  induction n as [|n IH]; cbn [decay]; [reflexivity|].
  apply Qmult_lt_0_compat; [reflexivity | exact IH].
Qed.

Lemma decay_antitone (n m : nat) : (n <= m)%nat -> decay m <= decay n.
Proof.
  induction 1 as [|m Hle IH]; [apply Qle_refl|].
  cbn [decay]. pose proof (decay_pos m). lra.
Qed.

Lemma decay_200 : decay 200 * 28 < 0.001.
Proof. vm_compute. reflexivity. Qed.

(** C2.  Iterating [new = old + (target - old) * 0.05] against a fixed
    target, from any start: the distance to the target never increases
    from one step to the next; the value never passes the target (from
    below it rises and stays below, from above it falls and stays above);
    and from an initial distance of at most 28 every step from the 200th
    on is within 0.001 of the target. *)
Theorem easing_converges (target v : Q) :
  (forall n,
      Qabs (target - Nat.iter (S n) (easeToward target) v)
      <= Qabs (target - Nat.iter n (easeToward target) v))
  /\ (forall n,
         v <= target ->
         Nat.iter n (easeToward target) v
         <= Nat.iter (S n) (easeToward target) v
         /\ Nat.iter (S n) (easeToward target) v <= target)
  /\ (forall n,
         target <= v ->
         target <= Nat.iter (S n) (easeToward target) v
         /\ Nat.iter (S n) (easeToward target) v
            <= Nat.iter n (easeToward target) v)
  /\ (forall n,
         Qabs (target - v) <= 28 -> (200 <= n)%nat ->
         Qabs (target - Nat.iter n (easeToward target) v) < 0.001).
Proof.
  split; [|split; [|split]].
  - intros n. simpl Nat.iter. rewrite easeToward_distance.
    pose proof (Qabs_nonneg (target - Nat.iter n (easeToward target) v)).
    lra.
  - intros n H. simpl Nat.iter. apply easeToward_below.
    now apply iter_easeToward_below.
  - intros n H. simpl Nat.iter. apply easeToward_above.
    now apply iter_easeToward_above.
  - intros n Hd Hn. rewrite iter_easeToward_distance.
    pose proof (decay_antitone 200 n Hn) as Hle.
    pose proof (decay_pos n) as Hpos.
    pose proof (Qabs_nonneg (target - v)) as Habs.
    pose proof decay_200 as H200.
    apply Qle_lt_trans with (decay 200 * 28); [|exact H200].
    apply Qle_trans with (decay n * 28).
    + apply Qmult_le_l; [exact Hpos | exact Hd].
    + apply Qmult_le_compat_r; [exact Hle | discriminate].
Qed.

(** *** The physics step on the scene *)

Lemma updatePhysics_isExploded (st : Scene) :
  isExploded (updatePhysics st) = isExploded st.
Proof. reflexivity. Qed.

Lemma updatePhysics_zoomed (st : Scene) :
  zoomedPhotoIdRef (updatePhysics st) = zoomedPhotoIdRef st.
Proof. reflexivity. Qed.

Lemma frames_isExploded (n : nat) (st : Scene) :
  isExploded (frames n st) = isExploded st.
Proof.
  induction n as [|n IH]; [reflexivity|].
  unfold frames in *. simpl Nat.iter. now rewrite updatePhysics_isExploded.
Qed.

(** Under [n] frames every particle coordinate is the [n]-fold easing
    toward the target that the explode flag selects. *)
Lemma frames_particles (n : nat) (st : Scene) :
  particlesRef (frames n st)
  = map (fun p =>
           Particle.setPosition p
             (Nat.iter n (easeToward (if isExploded st then Particle.targetX p
                                      else Particle.baseX p)) (Particle.x p))
             (Nat.iter n (easeToward (if isExploded st then Particle.targetY p
                                      else Particle.baseY p)) (Particle.y p))
             (Nat.iter n (easeToward (if isExploded st then Particle.targetZ p
                                      else Particle.baseZ p)) (Particle.z p)))
        (particlesRef st).
Proof.
  induction n as [|n IH].
  - unfold frames. simpl Nat.iter.
    rewrite <- (map_id (particlesRef st)) at 1.
    apply map_ext. now intros [].
  - change (frames (S n) st) with (updatePhysics (frames n st)).
    unfold updatePhysics at 1. cbn [particlesRef].
    rewrite IH, frames_isExploded, map_map.
    apply map_ext. intros p. reflexivity.
Qed.

Lemma strictEq_true (zoomed : option string) (id : string) :
  strictEq zoomed id = true <-> zoomed = Some id.
Proof.
  destruct zoomed as [s|]; cbn [strictEq].
  - rewrite String.eqb_eq. split; congruence.
  - split; discriminate.
Qed.

Lemma truthy_true (zoomed : option string) :
  truthy zoomed = true <-> exists s, zoomed = Some s /\ s <> EmptyString.
Proof.
  destruct zoomed as [s|]; cbn [truthy].
  - rewrite negb_true_iff, String.eqb_neq. split.
    + intros H. now exists s.
    + intros [s' [E H]]. congruence.
  - split; [discriminate | intros [s [E _]]; discriminate].
Qed.

(** C3 (amended).  In a physics step every photo is eased, in position
    and opacity, toward a target resolved by priority: the zoomed photo
    toward the scene centre at the forward offset [250 - FOCAL_LENGTH] with
    opacity target 1; any other photo, while a photo is zoomed, toward
    its explosion target with [targetX] and [targetY] scaled by 3 and
    [targetZ] as it is, with opacity target 0; with no zoomed photo, toward
    the explosion target or the rest position according to the explode
    flag, with opacity target 1 if exploded and 0 otherwise. *)
Theorem updatePhysics_photo_target (st : Scene) (i : nat) (p : PhotoObject.t) :
  nth_error (photoObjectsRef st) i = Some p ->
  exists p',
    nth_error (photoObjectsRef (updatePhysics st)) i = Some p'
    /\ (zoomedPhotoIdRef st = Some (PhotoObject.id p) ->
        photoEasedToward 0 0 (- FOCAL_LENGTH + 250) 1 p p')
    /\ (forall other,
           zoomedPhotoIdRef st = Some other ->
           other <> PhotoObject.id p -> other <> EmptyString ->
           photoEasedToward (PhotoObject.targetX p * 3)
                            (PhotoObject.targetY p * 3)
                            (PhotoObject.targetZ p) 0 p p')
    /\ (zoomedPhotoIdRef st = None ->
        photoEasedToward
          (if isExploded st then PhotoObject.targetX p else PhotoObject.baseX p)
          (if isExploded st then PhotoObject.targetY p else PhotoObject.baseY p)
          (if isExploded st then PhotoObject.targetZ p else PhotoObject.baseZ p)
          (if isExploded st then 1 else 0) p p').
Proof.
  intros Hp.
  exists (updatePhoto (zoomedPhotoIdRef st) (isExploded st) p).
  split; [|split; [|split]].
  - unfold updatePhysics. cbn [photoObjectsRef].
    rewrite nth_error_map, Hp. reflexivity.
  - intros Hz. unfold updatePhoto, photoTarget.
    rewrite (proj2 (strictEq_true _ _) Hz).
    repeat split.
  - intros other Hz Hne Hnonempty. unfold updatePhoto, photoTarget.
    destruct (strictEq (zoomedPhotoIdRef st) (PhotoObject.id p)) eqn:E.
    { apply strictEq_true in E. congruence. }
    rewrite (proj2 (truthy_true _)) by (exists other; now split).
    repeat split.
  - intros Hz. unfold updatePhoto, photoTarget. rewrite Hz.
    cbn [strictEq truthy]. repeat split.
Qed.

(** *** Rotation *)

Lemma handleInteraction_rotation (X Y : Q) (right : bool) (st : Scene) :
  rotationRef (handleInteraction X Y right st) = rotationRef st.
Proof.
  unfold handleInteraction.
  destruct right; [reflexivity|].
  destruct (negb (isExploded st)); [reflexivity|].
  destruct (truthy (zoomedPhotoIdRef st)); [reflexivity|].
  destruct (canvasRef st); [|reflexivity].
  match goal with |- context [if ?b then _ else _] => destruct b end;
    reflexivity.
Qed.

Lemma gestureEffect_rotation (g : GestureType) (c : option Cursor.t)
    (st : Scene) :
  rotationRef (gestureEffect g c st) = rotationRef st.
Proof.
  unfold gestureEffect.
  destruct g; cbn [GestureType_eqb andb]; try reflexivity.
  - destruct (negb (isExploded st)); reflexivity.
  - destruct c as [c|]; [|reflexivity].
    destruct (canvasRef st); [|reflexivity].
    apply handleInteraction_rotation.
Qed.

Lemma syncPhotos_rotation (photos : list HTMLImageElement.t) (st : Scene) :
  rotationRef (syncPhotos photos st) = rotationRef st.
Proof.
  unfold syncPhotos.
  destruct (List.length photos =? 0)%nat; [reflexivity|].
  destruct (List.length (photoObjectsRef st) <? List.length photos)%nat;
    [|reflexivity].
  destruct (pushPhotos _ _ _). reflexivity.
Qed.

Lemma handleResize_rotation (w : Q) (canvas : option Canvas.t) (st : Scene) :
  rotationRef (handleResize w canvas st) = rotationRef st.
Proof.
  unfold handleResize. destruct (newParticles _ _ _ _ _). reflexivity.
Qed.

Lemma updatePhysics_rotation (st : Scene) :
  rotationRef (updatePhysics st)
  = if truthy (zoomedPhotoIdRef st) then rotationRef st
    else rotationRef st + (if isExploded st then 0.001 else 0.003).
Proof.
  unfold updatePhysics. cbn [rotationRef].
  destruct (truthy (zoomedPhotoIdRef st)); reflexivity.
Qed.

Lemma step_rotation (st : Scene) (e : Event) :
  rotationRef st <= rotationRef (step st e).
Proof.
  destruct e; cbn [step].
  - rewrite updatePhysics_rotation.
    destruct (truthy (zoomedPhotoIdRef st)); [apply Qle_refl|].
    destruct (isExploded st); lra.
  - unfold onMouseDown. destruct (canvasRef st); [|apply Qle_refl].
    rewrite handleInteraction_rotation. apply Qle_refl.
  - rewrite gestureEffect_rotation. apply Qle_refl.
  - rewrite syncPhotos_rotation. apply Qle_refl.
  - rewrite handleResize_rotation. apply Qle_refl.
Qed.

Lemma run_rotation (events : list Event) (st : Scene) :
  rotationRef st <= rotationRef (run st events).
Proof.
  revert st. induction events as [|e events IH]; intros st.
  - apply Qle_refl.
  - cbn [run fold_left]. eapply Qle_trans; [apply step_rotation|].
    apply IH.
Qed.

(** C5.  A physics step leaves the rotation angle as it is while a photo
    is zoomed, and otherwise adds a fixed increment, 0.001 while the
    explode flag is set and 0.003 while it is not, the first strictly
    smaller than the second; over every sequence of frames and other
    events the rotation angle never decreases. *)
Theorem rotation_frozen_or_advancing (st : Scene) :
  rotationRef (updatePhysics st)
  = (if truthy (zoomedPhotoIdRef st) then rotationRef st
     else rotationRef st + (if isExploded st then 0.001 else 0.003))
  /\ (forall st1 st2,
         truthy (zoomedPhotoIdRef st1) = false ->
         truthy (zoomedPhotoIdRef st2) = false ->
         isExploded st1 = true -> isExploded st2 = false ->
         rotationRef (updatePhysics st1) - rotationRef st1
         < rotationRef (updatePhysics st2) - rotationRef st2)
  /\ (forall n, rotationRef st <= rotationRef (frames n st))
  /\ (forall events, rotationRef st <= rotationRef (run st events)).
Proof.
  split; [apply updatePhysics_rotation|split; [|split]].
  - intros st1 st2 Z1 Z2 E1 E2.
    rewrite !updatePhysics_rotation, Z1, Z2, E1, E2. lra.
  - intros n. induction n as [|n IH]; [apply Qle_refl|].
    change (frames (S n) st) with (step (frames n st) Tick).
    eapply Qle_trans; [exact IH | apply step_rotation].
  - intros events. apply run_rotation.
Qed.

(** *** Cancel *)

(** C8.  From every scene state, a right click ([handleInteraction] with
    [isRightClick], also through [onMouseDown] with button 2 on the
    mounted canvas) and a CLOSED_FIST gesture set the explode flag to
    false and the zoomed photo id to null, and change nothing else. *)
Theorem cancel_collapses_and_clears_zoom (st : Scene) :
  (forall inputX inputY,
      handleInteraction inputX inputY true st
      = mkScene (particlesRef st) (photoObjectsRef st) (rotationRef st)
                None false (canvasRef st) (dimensions st) (isMobile st)
                (randomCalls st))
  /\ (forall clientX clientY canvas,
         canvasRef st = Some canvas ->
         onMouseDown clientX clientY 2 st
         = mkScene (particlesRef st) (photoObjectsRef st) (rotationRef st)
                   None false (canvasRef st) (dimensions st) (isMobile st)
                   (randomCalls st))
  /\ (forall gestureCursor,
         gestureEffect CLOSED_FIST gestureCursor st
         = mkScene (particlesRef st) (photoObjectsRef st) (rotationRef st)
                   None false (canvasRef st) (dimensions st) (isMobile st)
                   (randomCalls st)).
Proof.
  split; [|split].
  - reflexivity.
  - intros clientX clientY canvas Hc. destruct st as [ps hs r z e c d m n].
    cbn [canvasRef] in Hc. subst c. reflexivity.
  - reflexivity.
Qed.

(** *** Frame property of the physics step *)

Lemma updateParticle_creation (exploded : bool) (p : Particle.t) :
  particleCreation (updateParticle exploded p) = particleCreation p.
Proof. reflexivity. Qed.

Lemma updatePhoto_creation (zoomed : option string) (exploded : bool)
    (p : PhotoObject.t) :
  photoCreation (updatePhoto zoomed exploded p) = photoCreation p.
Proof.
  unfold updatePhoto. destruct (photoTarget zoomed exploded p) as [[[tx ty] tz] o].
  reflexivity.
Qed.

(** C9.  A physics step keeps the population and its order and, for every
    particle and every photo, every creation-time attribute: id, kind,
    rest position, explosion target, colour, size, variant and twinkle
    parameters of a particle; id, image, width, height, aspect ratio, rest
    position and explosion target of a photo.  The same holds over any
    number of steps; the step also leaves the explode flag, the zoomed id,
    the canvas, the dimensions and the size class alone. *)
Theorem updatePhysics_preserves_creation (st : Scene) :
  map particleCreation (particlesRef (updatePhysics st))
  = map particleCreation (particlesRef st)
  /\ map photoCreation (photoObjectsRef (updatePhysics st))
     = map photoCreation (photoObjectsRef st)
  /\ (forall n,
         map particleCreation (particlesRef (frames n st))
         = map particleCreation (particlesRef st)
         /\ map photoCreation (photoObjectsRef (frames n st))
            = map photoCreation (photoObjectsRef st))
  /\ isExploded (updatePhysics st) = isExploded st
  /\ zoomedPhotoIdRef (updatePhysics st) = zoomedPhotoIdRef st
  /\ canvasRef (updatePhysics st) = canvasRef st
  /\ dimensions (updatePhysics st) = dimensions st
  /\ isMobile (updatePhysics st) = isMobile st.
Proof.
  assert (Hone : forall s,
             map particleCreation (particlesRef (updatePhysics s))
             = map particleCreation (particlesRef s)
             /\ map photoCreation (photoObjectsRef (updatePhysics s))
                = map photoCreation (photoObjectsRef s)).
  { intros s. unfold updatePhysics. cbn [particlesRef photoObjectsRef].
    rewrite !map_map. split; apply map_ext; intros p.
    - apply updateParticle_creation.
    - apply updatePhoto_creation. }
  split; [apply Hone | split; [apply Hone | split]].
  - intros n. induction n as [|n [IH1 IH2]]; [now split|].
    change (frames (S n) st) with (updatePhysics (frames n st)).
    destruct (Hone (frames n st)) as [H1 H2].
    split; congruence.
  - repeat split.
Qed.

(** *** Opacity *)

Lemma easeToward_unit (target o : Q) :
  (target = 0 \/ target = 1) -> 0 <= o <= 1 ->
  0 <= easeToward target o <= 1.
Proof.
  unfold easeToward, ease. intros [-> | ->] [H0 H1]; split; lra.
Qed.

Lemma photoTarget_opacity (zoomed : option string) (exploded : bool)
    (p : PhotoObject.t) :
  snd (photoTarget zoomed exploded p) = 0
  \/ snd (photoTarget zoomed exploded p) = 1.
Proof.
  unfold photoTarget.
  destruct (strictEq zoomed (PhotoObject.id p)); [now right|].
  destruct (truthy zoomed); [now left|].
  destruct exploded; [now right | now left].
Qed.

Lemma updatePhoto_opacity (zoomed : option string) (exploded : bool)
    (p : PhotoObject.t) :
  PhotoObject.opacity (updatePhoto zoomed exploded p)
  = easeToward (snd (photoTarget zoomed exploded p)) (PhotoObject.opacity p).
Proof.
  unfold updatePhoto.
  destruct (photoTarget zoomed exploded p) as [[[tx ty] tz] o]. reflexivity.
Qed.

Lemma updatePhoto_opacityInRange (zoomed : option string) (exploded : bool)
    (p : PhotoObject.t) :
  opacityInRange p -> opacityInRange (updatePhoto zoomed exploded p).
Proof.
  unfold opacityInRange. intros H. rewrite updatePhoto_opacity.
  apply easeToward_unit; [apply photoTarget_opacity | exact H].
Qed.

Lemma newPhoto_opacity (img : HTMLImageElement.t) (n : nat) :
  PhotoObject.opacity (fst (newPhoto img n)) = 0.
Proof. reflexivity. Qed.

Lemma pushPhotos_opacityInRange (newImgs : list HTMLImageElement.t) :
  forall objs n,
    Forall opacityInRange objs ->
    Forall opacityInRange (fst (pushPhotos newImgs objs n)).
Proof.
  induction newImgs as [|img rest IH]; intros objs n H; [exact H|].
  cbn [pushPhotos]. unfold bindR at 1.
  destruct (newPhoto img n) as [p n'] eqn:E.
  apply IH. apply Forall_app. split; [exact H|].
  constructor; [|constructor].
  unfold opacityInRange.
  replace p with (fst (newPhoto img n)) by now rewrite E.
  rewrite newPhoto_opacity. split; lra.
Qed.

Lemma handleInteraction_photos (X Y : Q) (right : bool) (st : Scene) :
  photoObjectsRef (handleInteraction X Y right st) = photoObjectsRef st.
Proof.
  unfold handleInteraction.
  destruct right; [reflexivity|].
  destruct (negb (isExploded st)); [reflexivity|].
  destruct (truthy (zoomedPhotoIdRef st)); [reflexivity|].
  destruct (canvasRef st); [|reflexivity].
  match goal with |- context [if ?b then _ else _] => destruct b end;
    reflexivity.
Qed.

Lemma gestureEffect_photos (g : GestureType) (c : option Cursor.t)
    (st : Scene) :
  photoObjectsRef (gestureEffect g c st) = photoObjectsRef st.
Proof.
  unfold gestureEffect.
  destruct g; cbn [GestureType_eqb andb]; try reflexivity.
  - destruct (negb (isExploded st)); reflexivity.
  - destruct c as [c|]; [|reflexivity].
    destruct (canvasRef st); [|reflexivity].
    apply handleInteraction_photos.
Qed.

Lemma step_opacityInRange (st : Scene) (e : Event) :
  Forall opacityInRange (photoObjectsRef st) ->
  Forall opacityInRange (photoObjectsRef (step st e)).
Proof.
  intros H. destruct e; cbn [step].
  - unfold updatePhysics. cbn [photoObjectsRef].
    apply Forall_map. eapply Forall_impl; [|exact H].
    intros p. apply updatePhoto_opacityInRange.
  - unfold onMouseDown. destruct (canvasRef st); [|exact H].
    now rewrite handleInteraction_photos.
  - now rewrite gestureEffect_photos.
  - unfold syncPhotos.
    destruct (List.length photos =? 0)%nat; [constructor|].
    destruct (List.length (photoObjectsRef st) <? List.length photos)%nat;
      [|exact H].
    pose proof (pushPhotos_opacityInRange
                  (skipn (List.length (photoObjectsRef st)) photos)
                  (photoObjectsRef st) (randomCalls st) H) as Hp.
    destruct (pushPhotos _ _ _). exact Hp.
  - unfold handleResize. destruct (newParticles _ _ _ _ _). exact H.
Qed.

(** C10.  Every photo is created with opacity 0; in a physics step its
    opacity target is 0 or 1 and the update
    [opacity += (target - opacity) * 0.05] maps [0, 1] into [0, 1]; so
    the opacity of every photo is within [0, 1] in every state that the
    component reaches from its initial state, whatever the events. *)
Theorem opacity_within_unit_interval (events : list Event) :
  Forall opacityInRange (photoObjectsRef (run initialScene events))
  /\ (forall img n, PhotoObject.opacity (fst (newPhoto img n)) = 0)
  /\ (forall zoomed exploded p,
         snd (photoTarget zoomed exploded p) = 0
         \/ snd (photoTarget zoomed exploded p) = 1)
  /\ (forall zoomed exploded p,
         PhotoObject.opacity (updatePhoto zoomed exploded p)
         = easeToward (snd (photoTarget zoomed exploded p))
                      (PhotoObject.opacity p))
  /\ (forall st e,
         Forall opacityInRange (photoObjectsRef st) ->
         Forall opacityInRange (photoObjectsRef (step st e))).
Proof.
  split; [|split; [|split; [|split]]].
  - assert (Hrun : forall evs st,
               Forall opacityInRange (photoObjectsRef st) ->
               Forall opacityInRange (photoObjectsRef (run st evs))).
    { induction evs as [|e evs IH]; intros st H; [exact H|].
      cbn [run fold_left]. apply IH. now apply step_opacityInRange. }
    apply Hrun. constructor.
  - apply newPhoto_opacity.
  - apply photoTarget_opacity.
  - apply updatePhoto_opacity.
  - apply step_opacityInRange.
Qed.

(** *** Particle kinds *)

Lemma particleKind_spec (mobile : bool) (rand : Q) (color0 : option string)
    (size0 : Q) (n : nat) :
  kindOfDraw rand (fst (fst (fst (fst (particleKind mobile rand color0 size0 n)))))
  /\ snd (particleKind mobile rand color0 size0 n) = S n.
Proof.
  unfold particleKind, kindOfDraw, bindR, random, ret.
  destruct (rand <? 0.10) eqn:E1; cbn [fst snd].
  { apply Qltb_lt in E1. split; [left; now split | reflexivity]. }
  apply Qltb_nlt in E1. apply Qnot_lt_le in E1.
  destruct (rand <? 0.18) eqn:E2; cbn [fst snd].
  { apply Qltb_lt in E2. split; [right; left; now repeat split | reflexivity]. }
  apply Qltb_nlt in E2. apply Qnot_lt_le in E2.
  split; [right; right; now split | reflexivity].
Qed.

Lemma newParticle_spec (dims : Dimensions.t) (mobile : bool) (i n : nat) :
  Particle.id (fst (newParticle dims mobile i n)) = i
  /\ kindOfDraw (Math_random (n + 4)) (Particle.type (fst (newParticle dims mobile i n)))
  /\ snd (newParticle dims mobile i n) = (n + 10)%nat.
Proof.
  cbv [newParticle bindR random ret].
  match goal with
  | |- context [particleKind ?m ?r ?c ?s ?k] =>
    pose proof (particleKind_spec m r c s k) as [Hk Hn];
    destruct (particleKind m r c s k) as [[[[ty col] sz] var] n'] eqn:E
  end.
  cbn [fst snd] in Hk, Hn. subst n'.
  cbv [bindR random ret fst snd Particle.id Particle.type].
  replace (n + 4)%nat with (S (S (S (S n)))) by lia.
  repeat split; [exact Hk | lia].
Qed.

Lemma newParticles_nth (dims : Dimensions.t) (mobile : bool) (k : nat) :
  forall i n j,
    (j < k)%nat ->
    exists p,
      nth_error (fst (newParticles dims mobile k i n)) j = Some p
      /\ Particle.id p = (i + j)%nat
      /\ kindOfDraw (Math_random (n + 10 * j + 4)) (Particle.type p).
Proof.
  induction k as [|k IH]; intros i n j Hj; [lia|].
  cbn [newParticles]. unfold bindR at 1.
  pose proof (newParticle_spec dims mobile i n) as [Hid [Hkind Hn]].
  destruct (newParticle dims mobile i n) as [p n'].
  cbn [fst snd] in Hid, Hkind, Hn. subst n'.
  unfold bindR at 1.
  destruct j as [|j].
  - destruct (newParticles dims mobile k (S i) (n + 10)%nat) as [ps n''].
    exists p. cbn [ret fst nth_error].
    replace (n + 10 * 0 + 4)%nat with (n + 4)%nat by lia.
    repeat split; [lia | exact Hkind].
  - destruct (IH (S i) (n + 10)%nat j) as [q [Hq [Hqid Hqk]]]; [lia|].
    destruct (newParticles dims mobile k (S i) (n + 10)%nat) as [ps n''].
    exists q. cbn [ret fst nth_error] in *.
    replace (n + 10 * S j + 4)%nat with (n + 10 + 10 * j + 4)%nat by lia.
    repeat split; [exact Hq | lia | exact Hqk].
Qed.

Lemma newParticles_length (dims : Dimensions.t) (mobile : bool) (k : nat) :
  forall i n, List.length (fst (newParticles dims mobile k i n)) = k.
Proof.
  induction k as [|k IH]; intros i n; [reflexivity|].
  cbn [newParticles]. unfold bindR at 1.
  destruct (newParticle dims mobile i n) as [p n'].
  unfold bindR at 1. specialize (IH (S i) n').
  destruct (newParticles dims mobile k (S i) n') as [ps n''].
  cbn [ret fst List.length] in *. now rewrite IH.
Qed.

Lemma particleKind_drawnKind (mobile : bool) (rand : Q)
    (color0 : option string) (size0 : Q) (n : nat) :
  fst (fst (fst (fst (particleKind mobile rand color0 size0 n))))
  = drawnKind rand.
Proof.
  unfold drawnKind, particleKind, bindR, random, ret.
  destruct (rand <? 0.10); [reflexivity|].
  destruct (rand <? 0.18); reflexivity.
Qed.

Lemma drawnKind_grid :
  countKind SPARKLE (map drawnKind (uniformGrid 1000)) = 100%nat
  /\ countKind GIFT (map drawnKind (uniformGrid 1000)) = 80%nat
  /\ countKind FLOWER (map drawnKind (uniformGrid 1000)) = 820%nat.
Proof. split; [|split]; vm_compute; reflexivity. Qed.

(** C7.  Each generated particle takes its kind from one draw of
    [Math.random], the fifth of the ten draws made for that particle: a
    draw below 0.10 gives SPARKLE, a draw in [0.10, 0.18) gives GIFT, any
    other draw gives the ornament kind (the tag ['FLOWER'] of the code).
    The population rebuilt on a resize has [PARTICLE_COUNT] particles, the
    [j]-th with id [j] and the kind of draw number [10 j + 4] of the
    rebuild.  Over the grid of 1000 equally spaced draws the kinds are
    10% sparkles, 8% gifts and 82% ornaments. *)
Theorem particle_kind_from_one_draw
    (innerWidth : Q) (canvas : option Canvas.t) (st : Scene) :
  let mobile := innerWidth <? 768 in
  List.length (particlesRef (handleResize innerWidth canvas st))
  = PARTICLE_COUNT mobile
  /\ (forall j,
         (j < PARTICLE_COUNT mobile)%nat ->
         exists p,
           nth_error (particlesRef (handleResize innerWidth canvas st)) j
           = Some p
           /\ Particle.id p = j
           /\ kindOfDraw (Math_random (randomCalls st + 10 * j + 4))
                         (Particle.type p))
  /\ (forall rand, kindOfDraw rand (drawnKind rand))
  /\ countKind SPARKLE (map drawnKind (uniformGrid 1000)) = 100%nat
  /\ countKind GIFT (map drawnKind (uniformGrid 1000)) = 80%nat
  /\ countKind FLOWER (map drawnKind (uniformGrid 1000)) = 820%nat.
Proof.
  intros mobile. split; [|split; [|split]].
  - unfold handleResize. fold mobile.
    pose proof (newParticles_length
                  (Dimensions.mk (if mobile then 400 else 600)
                                 (if mobile then 140 else 220))
                  mobile (PARTICLE_COUNT mobile) 0 (randomCalls st)) as H.
    destruct (newParticles _ _ _ _ _). exact H.
  - intros j Hj. unfold handleResize. fold mobile.
    destruct (newParticles_nth
                (Dimensions.mk (if mobile then 400 else 600)
                               (if mobile then 140 else 220))
                mobile (PARTICLE_COUNT mobile) 0 (randomCalls st) j Hj)
      as [p [Hp [Hid Hk]]].
    destruct (newParticles _ _ _ _ _). exists p.
    repeat split; [exact Hp | exact Hid | exact Hk].
  - intros rand. unfold drawnKind.
    apply (particleKind_spec false rand None 0 0%nat).
  - apply drawnKind_grid.
Qed.

(** *** Array.prototype.sort: the result is an ordered, stable
    rearrangement *)

Section Sorting.

Variable A : Type.
Variable cmp : A -> A -> Q.
(** The order that the comparator decides. *)
Variable R : A -> A -> Prop.
Hypothesis cmp_R : forall a b, cmp a b <= 0 <-> R a b.
Hypothesis R_total : forall a b, R a b \/ R b a.
Hypothesis R_trans : forall a b c, R a b -> R b c -> R a c.

Lemma insertBy_perm (a : A) (l : list A) :
  Permutation (insertBy cmp a l) (a :: l).
Proof.
  induction l as [|b l IH]; cbn [insertBy]; [apply Permutation_refl|].
  destruct (cmp a b <=? 0); [apply Permutation_refl|].
  eapply Permutation_trans; [apply perm_skip, IH | apply perm_swap].
Qed.

Lemma Array_sort_perm (l : list A) : Permutation (Array_sort cmp l) l.
Proof.
  induction l as [|a l IH]; cbn [Array_sort fold_right];
    [apply Permutation_refl|].
  eapply Permutation_trans; [apply insertBy_perm|].
  apply perm_skip, IH.
Qed.

Lemma insertBy_sorted (a : A) (l : list A) :
  StronglySorted R l -> StronglySorted R (insertBy cmp a l).
Proof.
  induction 1 as [|b l Hs IH Hb]; cbn [insertBy].
  - constructor; constructor.
  - destruct (cmp a b <=? 0) eqn:E.
    + apply Qleb_le, cmp_R in E.
      constructor; [now constructor|].
      constructor; [exact E|].
      eapply Forall_impl; [|exact Hb]. intros c Hc. now apply R_trans with b.
    + apply Qleb_nle in E.
      assert (Hba : R b a).
      { destruct (R_total b a) as [H | H]; [exact H|].
        apply cmp_R in H. lra. }
      constructor; [exact IH|].
      eapply Permutation_Forall;
        [apply Permutation_sym, insertBy_perm|].
      now constructor.
Qed.

Lemma Array_sort_sorted (l : list A) : StronglySorted R (Array_sort cmp l).
Proof.
  induction l as [|a l IH]; cbn [Array_sort fold_right]; [constructor|].
  now apply insertBy_sorted.
Qed.

(** Stability: the items that the comparator ranks equal to [x] keep
    their order. *)
Lemma insertBy_stable (x a : A) (l : list A) :
  filter (tied cmp x) (insertBy cmp a l) = filter (tied cmp x) (a :: l).
Proof.
  induction l as [|b l IH]; cbn [insertBy]; [reflexivity|].
  destruct (cmp a b <=? 0) eqn:E; [reflexivity|].
  apply Qleb_nle in E.
  cbn [filter] in *. rewrite IH.
  destruct (tied cmp x a) eqn:Ta; [|reflexivity].
  destruct (tied cmp x b) eqn:Tb; [|reflexivity].
  exfalso. unfold tied in Ta, Tb.
  apply andb_true_iff in Ta as [_ Hax]. apply andb_true_iff in Tb as [Hxb _].
  apply Qleb_le, cmp_R in Hax. apply Qleb_le, cmp_R in Hxb.
  pose proof (proj2 (cmp_R a b) (R_trans _ _ _ Hax Hxb)). lra.
Qed.

Lemma Array_sort_stable (x : A) (l : list A) :
  filter (tied cmp x) (Array_sort cmp l) = filter (tied cmp x) l.
Proof.
  induction l as [|a l IH]; [reflexivity|].
  cbn [Array_sort fold_right]. rewrite insertBy_stable.
  cbn [filter]. fold (Array_sort cmp l). now rewrite IH.
Qed.

End Sorting.

(** *** Hit testing *)

(** [hits] in words: the photo is in front of the camera plane and its
    projected rectangle, centred at [(x2d, y2d)] with the projected width
    and height, contains the input point. *)
Lemma hits_spec (cx cy cos sin inputX inputY : Q) (p : PhotoObject.t) :
  hits cx cy cos sin inputX inputY p = true <->
  let rx := PhotoObject.x p * cos - PhotoObject.z p * sin in
  let rz := rotatedDepth cos sin p in
  let scale := FOCAL_LENGTH / (FOCAL_LENGTH + rz) in
  let x2d := rx * scale + cx in
  let y2d := PhotoObject.y p * scale + cy in
  let w := PhotoObject.width p * scale in
  let h := PhotoObject.height p * scale in
  0 < scale
  /\ x2d - w / 2 <= inputX /\ inputX <= x2d + w / 2
  /\ y2d - h / 2 <= inputY /\ inputY <= y2d + h / 2.
Proof.
  unfold hits, rotatedDepth. cbv zeta.
  destruct (FOCAL_LENGTH
            / (FOCAL_LENGTH + (PhotoObject.z p * cos + PhotoObject.x p * sin))
            <=? 0) eqn:E.
  - apply Qleb_le in E. split; [discriminate|]. intros [H _]. lra.
  - apply Qleb_nle in E. unfold Qgeb.
    rewrite !andb_true_iff, !Qleb_le.
    split.
    + intros [[[H1 H2] H3] H4]. now repeat split.
    + intros [_ [H1 [H2 [H3 H4]]]]. now repeat split.
Qed.



Lemma clickedId_some (cx cy cos sin X Y : Q) (l : list PhotoObject.t)
    (id : string) :
  clickedId cx cy cos sin X Y l = Some id ->
  exists before p after,
    l = before ++ p :: after
    /\ (forall q, In q before -> hits cx cy cos sin X Y q = false)
    /\ hits cx cy cos sin X Y p = true
    /\ PhotoObject.id p = id.
Proof.
  induction l as [|b l IH]; [discriminate|].
  cbn [clickedId]. destruct (hits cx cy cos sin X Y b) eqn:E.
  - intros [= <-]. exists [], b, l. repeat split; [now intros q []|exact E].
  - intros H. destruct (IH H) as [before [p [after [-> [Hb [Hp Hid]]]]]].
    exists (b :: before), p, after.
    repeat split; [|exact Hp|exact Hid].
    intros q [<- | Hq]; [exact E | now apply Hb].
Qed.

Lemma candidates_perm (cos sin : Q) (photos : list PhotoObject.t) :
  Permutation (candidates cos sin photos)
              (filter (fun p => PhotoObject.opacity p >? 0.5) photos).
Proof. apply Array_sort_perm. Qed.


Lemma candidates_In (cos sin : Q) (photos : list PhotoObject.t)
    (p : PhotoObject.t) :
  In p (candidates cos sin photos)
  <-> In p photos /\ 0.5 < PhotoObject.opacity p.
Proof.
  split.
  - intros H. apply (Permutation_in _ (candidates_perm cos sin photos)) in H.
    apply filter_In in H as [Hin Ho]. split; [exact Hin|].
    now apply Qltb_lt.
  - intros [Hin Ho].
    apply (Permutation_in _ (Permutation_sym (candidates_perm cos sin photos))).
    apply filter_In. split; [exact Hin|]. now apply Qltb_lt.
Qed.


(** The opacity of a photo is never exactly one half.  Every opacity
    starts at 0 and is eased toward 0 or 1, so it stays on the grid of the
    fractions [A / 20 ^ n] with [A] congruent to 0 or 1 modulo 19, and one
    half is not on it: [2 A = 20 ^ n] fails modulo 19. *)










(** *** The drawable list *)

Lemma starFaceItems_spec (verts : list Point3D.t)
    (faces : list (nat * nat * nat)) :
  Forall (fun face =>
            (fst (fst face) < List.length verts)%nat
            /\ (snd (fst face) < List.length verts)%nat
            /\ (snd face < List.length verts)%nat) faces ->
  exists items,
    starFaceItems verts faces = Some items
    /\ Forall2 (isStarFaceOf verts) faces items.
Proof.
  induction 1 as [|[[f0 f1] f2] faces [H0 [H1 H2]] _ [items [IH1 IH2]]].
  - exists []. split; [reflexivity | constructor].
  - cbn [fst snd] in H0, H1, H2.
    destruct (nth_error_of_length verts _ f0 eq_refl H0) as [v0 E0].
    destruct (nth_error_of_length verts _ f1 eq_refl H1) as [v1 E1].
    destruct (nth_error_of_length verts _ f2 eq_refl H2) as [v2 E2].
    cbn [starFaceItems]. unfold starFaceItem. rewrite E0, E1, E2, IH1.
    cbn [bind]. eexists. split; [reflexivity|].
    constructor; [|exact IH2].
    exists v0, v1, v2. eexists. cbn [fst snd]. repeat split; assumption.
Qed.

Lemma STAR_MODEL_faces_in_range :
  Forall (fun face =>
            (fst (fst face) < 12)%nat /\ (snd (fst face) < 12)%nat
            /\ (snd face < 12)%nat) (snd STAR_MODEL).
Proof.
  unfold STAR_MODEL, createStarModel. cbn [snd].
  cbv [seq flat_map starFan app Nat.add Nat.mul Nat.modulo Nat.divmod fst snd
       Nat.sub].
  repeat constructor.
Qed.

Lemma STAR_MODEL_size :
  List.length (fst STAR_MODEL) = 12%nat /\ List.length (snd STAR_MODEL) = 20%nat.
Proof. split; reflexivity. Qed.

(** C6.  A frame on a mounted canvas with a 2D context builds one list
    holding an item for every particle, an item for every photo and, only
    while no photo is zoomed, an item for each of the 20 triangular faces
    of the star.  Each particle and each photo is tagged with the z that
    the rotation step of the renderer gives it: its rotated z,
    [z cos r + x sin r], where the zoomed photo, which that step exempts
    from the rotation, keeps its own z.  A star face is tagged with the
    average of the rotated z of its three vertices.  The list is drawn in
    descending order of the tag, farthest first. *)
Theorem draw_lists_by_descending_depth (st : Scene) (canvas : Canvas.t) :
  canvasRef st = Some canvas ->
  Canvas.context2d canvas = true ->
  let cos := Math_cos (rotationRef st) in
  let sin := Math_sin (rotationRef st) in
  let starY := - Dimensions.height (dimensions st) / 2 - 20 in
  let verts := map (transformVert cos sin starY) (fst STAR_MODEL) in
  exists items faces,
    draw st = Some items
    /\ Permutation items
         (map (particleItem cos sin) (particlesRef st)
          ++ map (photoItem (zoomedPhotoIdRef st) cos sin) (photoObjectsRef st)
          ++ faces)
    /\ StronglySorted fartherOrEqual items
    /\ (if truthy (zoomedPhotoIdRef st) then faces = []
        else Forall2 (isStarFaceOf verts) (snd STAR_MODEL) faces
             /\ List.length faces = 20%nat)
    /\ (forall v,
           Point3D.z (transformVert cos sin starY v)
           = Point3D.z v * cos + Point3D.x v * sin)
    /\ (forall p,
           particleItem cos sin p
           = ItemParticle p (Particle.x p * cos - Particle.z p * sin)
                          (Particle.y p)
                          (Particle.z p * cos + Particle.x p * sin)
                          (Particle.z p * cos + Particle.x p * sin))
    /\ (forall p,
           zoomedPhotoIdRef st <> Some (PhotoObject.id p) ->
           photoItem (zoomedPhotoIdRef st) cos sin p
           = ItemPhoto p (PhotoObject.x p * cos - PhotoObject.z p * sin)
                       (PhotoObject.y p)
                       (PhotoObject.z p * cos + PhotoObject.x p * sin)
                       (PhotoObject.z p * cos + PhotoObject.x p * sin))
    /\ (forall p,
           zoomedPhotoIdRef st = Some (PhotoObject.id p) ->
           photoItem (zoomedPhotoIdRef st) cos sin p
           = ItemPhoto p (PhotoObject.x p) (PhotoObject.y p)
                       (PhotoObject.z p) (PhotoObject.z p)).
Proof.
  intros Hcanvas Hctx cos sin starY verts.
  assert (Hsorted : forall l,
             StronglySorted fartherOrEqual
               (Array_sort (fun a b => sortZ b - sortZ a) l)).
  { intros l. apply Array_sort_sorted.
    - intros a b. unfold fartherOrEqual. split; intros H; lra.
    - intros a b. unfold fartherOrEqual.
      destruct (Qlt_le_dec (sortZ a) (sortZ b)); [right; lra | now left].
    - intros a b c. unfold fartherOrEqual. intros; lra. }
  assert (Htags :
            (forall v,
                Point3D.z (transformVert cos sin starY v)
                = Point3D.z v * cos + Point3D.x v * sin)
            /\ (forall p,
                   particleItem cos sin p
                   = ItemParticle p (Particle.x p * cos - Particle.z p * sin)
                                  (Particle.y p)
                                  (Particle.z p * cos + Particle.x p * sin)
                                  (Particle.z p * cos + Particle.x p * sin))
            /\ (forall p,
                   zoomedPhotoIdRef st <> Some (PhotoObject.id p) ->
                   photoItem (zoomedPhotoIdRef st) cos sin p
                   = ItemPhoto p (PhotoObject.x p * cos - PhotoObject.z p * sin)
                               (PhotoObject.y p)
                               (PhotoObject.z p * cos + PhotoObject.x p * sin)
                               (PhotoObject.z p * cos + PhotoObject.x p * sin))
            /\ (forall p,
                   zoomedPhotoIdRef st = Some (PhotoObject.id p) ->
                   photoItem (zoomedPhotoIdRef st) cos sin p
                   = ItemPhoto p (PhotoObject.x p) (PhotoObject.y p)
                               (PhotoObject.z p) (PhotoObject.z p))).
  { split; [reflexivity | split; [reflexivity | split]].
    - intros p Hne. unfold photoItem.
      destruct (strictEq (zoomedPhotoIdRef st) (PhotoObject.id p)) eqn:E;
        [apply strictEq_true in E; contradiction | reflexivity].
    - intros p He. unfold photoItem.
      now rewrite (proj2 (strictEq_true _ _) He). }
  unfold draw, allObjects. rewrite Hcanvas, Hctx. cbn [negb]. fold cos sin.
  destruct (truthy (zoomedPhotoIdRef st)) eqn:Hz; cbn [negb].
  - eexists. exists []. cbn [bind].
    split; [reflexivity|]. rewrite app_nil_r.
    split; [apply Array_sort_perm|].
    split; [apply Hsorted|]. split; [reflexivity | exact Htags].
  - fold starY. fold verts.
    destruct (starFaceItems_spec verts (snd STAR_MODEL)) as [faces [Hf1 Hf2]].
    { unfold verts. rewrite length_map.
      rewrite (proj1 STAR_MODEL_size). apply STAR_MODEL_faces_in_range. }
    rewrite Hf1. cbn [bind]. eexists. exists faces.
    split; [reflexivity|].
    split; [apply Array_sort_perm|].
    split; [apply Hsorted|].
    split; [|exact Htags].
    split; [exact Hf2|].
    rewrite <- (Forall2_length Hf2). apply (proj2 STAR_MODEL_size).
Qed.

(** *** The zoomed id is never the empty string *)

Lemma handleInteraction_zoomed_nonempty (X Y : Q) (right : bool) (st : Scene) :
  zoomedPhotoIdRef st <> Some EmptyString ->
  zoomedPhotoIdRef (handleInteraction X Y right st) <> Some EmptyString.
Proof.
  intros H. unfold handleInteraction.
  destruct right; [discriminate|].
  destruct (negb (isExploded st)); [exact H|].
  destruct (truthy (zoomedPhotoIdRef st)); [discriminate|].
  destruct (canvasRef st); [|exact H].
  match goal with |- context [truthy ?c] => destruct (truthy c) eqn:E end;
    [|exact H].
  cbn [setZoomedPhotoId zoomedPhotoIdRef].
  apply truthy_true in E as [s [-> Hs]]. congruence.
Qed.

Lemma step_zoomed_nonempty (st : Scene) (e : Event) :
  zoomedPhotoIdRef st <> Some EmptyString ->
  zoomedPhotoIdRef (step st e) <> Some EmptyString.
Proof.
  intros H. destruct e; cbn [step].
  - exact H.
  - unfold onMouseDown. destruct (canvasRef st); [|exact H].
    now apply handleInteraction_zoomed_nonempty.
  - unfold gestureEffect.
    destruct currentGesture; cbn [GestureType_eqb andb]; try exact H.
    + destruct (negb (isExploded st)); exact H.
    + discriminate.
    + destruct gestureCursor; [|exact H].
      destruct (canvasRef st); [|exact H].
      now apply handleInteraction_zoomed_nonempty.
  - unfold syncPhotos.
    destruct (List.length photos =? 0)%nat; [discriminate|].
    destruct (List.length (photoObjectsRef st) <? List.length photos)%nat;
      [|exact H].
    destruct (pushPhotos _ _ _). exact H.
  - unfold handleResize. destruct (newParticles _ _ _ _ _). exact H.
Qed.

(** In every reachable state "a photo is zoomed" and "the zoomed id is
    truthy" are the same thing. *)
Lemma run_zoomed_nonempty (events : list Event) :
  zoomedPhotoIdRef (run initialScene events) <> Some EmptyString.
Proof.
  assert (H : forall evs st,
             zoomedPhotoIdRef st <> Some EmptyString ->
             zoomedPhotoIdRef (run st evs) <> Some EmptyString).
  { induction evs as [|e evs IH]; intros st Hst; [exact Hst|].
    cbn [run fold_left]. apply IH. now apply step_zoomed_nonempty. }
  apply H. discriminate.
Qed.

(** ** Further properties of the gesture bridge *)

Lemma nth_error_short {A : Type} (l : list A) (n i : nat) :
  (List.length l < n)%nat -> (n <= S i)%nat -> nth_error l i = None.
Proof. intros Hl Hi. apply nth_error_None. lia. Qed.

(** X1.  With a model loaded and a hand detected, [detectGesture] throws
    exactly when the first hand has fewer than 21 landmarks. *)
Theorem detectGesture_throws_iff_short_hand
    (hl : HandLandmarker) (now : Q) (video : HTMLVideoElement)
    (hand : list HandLandmark.t) (rest : list (list HandLandmark.t)) :
  landmarks (detectForVideo hl video now) = Some (hand :: rest) ->
  detectGesture (Some hl) now video = None <-> (List.length hand < 21)%nat.
Proof.
  intros Hres. unfold detectGesture. rewrite Hres. split.
  - intros H.
    destruct (Nat.lt_ge_cases (List.length hand) 21) as [Hlt | Hge];
      [exact Hlt | exfalso].
    destruct (nth_error hand 4) as [thumb|] eqn:E4;
      [|apply nth_error_None in E4; lia].
    destruct (nth_error hand 8) as [index|] eqn:E8;
      [|apply nth_error_None in E8; lia].
    destruct (nth_error hand 12) as [middle|] eqn:E12;
      [|apply nth_error_None in E12; lia].
    destruct (nth_error hand 16) as [ring|] eqn:E16;
      [|apply nth_error_None in E16; lia].
    destruct (nth_error hand 20) as [pinky|] eqn:E20;
      [|apply nth_error_None in E20; lia].
    destruct (nth_error hand 0) as [wrist|] eqn:E0;
      [|apply nth_error_None in E0; lia].
    cbn [bind] in H.
    repeat match type of H with
           | (if ?b then _ else _) = None => destruct b
           end; discriminate.
  - intros Hlt. rewrite (nth_error_short hand 21 20) by lia.
    destruct (nth_error hand 4); [|reflexivity].
    destruct (nth_error hand 8); [|reflexivity].
    destruct (nth_error hand 12); [|reflexivity].
    destruct (nth_error hand 16); reflexivity.
Qed.

(** X2.  Whatever [detectGesture] returns, its cursor is null exactly when
    its gesture is NONE. *)
Theorem detectGesture_cursor_null_iff_none
    (handLandmarker : option HandLandmarker) (now : Q)
    (video : HTMLVideoElement) (r : GestureResult) :
  detectGesture handLandmarker now video = Some r ->
  cursor r = None <-> gesture r = NONE.
Proof.
  unfold detectGesture.
  destruct handLandmarker as [hl|];
    [|intros [= <-]; split; reflexivity].
  destruct (landmarks (detectForVideo hl video now)) as [[|hand rest]|];
    try (intros [= <-]; split; reflexivity).
  destruct (nth_error hand 4); [|discriminate].
  destruct (nth_error hand 8); [|discriminate].
  destruct (nth_error hand 12); [|discriminate].
  destruct (nth_error hand 16); [|discriminate].
  destruct (nth_error hand 20); [|discriminate].
  destruct (nth_error hand 0); [|discriminate].
  cbn [bind].
  repeat match goal with
         | |- (if ?b then _ else _) = Some _ -> _ => destruct b
         end;
    intros [= <-]; cbn [cursor gesture]; split; discriminate.
Qed.

Lemma nth_error_planar (hand1 hand2 : list HandLandmark.t) (i : nat) :
  map planar hand1 = map planar hand2 ->
  option_map planar (nth_error hand1 i) = option_map planar (nth_error hand2 i).
Proof.
  intros H. rewrite <- !nth_error_map. now rewrite H.
Qed.

(** X3.  [detectGesture] reads nothing but the x and y of the landmarks of
    the first hand: two detections whose first hands agree on every
    landmark's (x, y) give the same result, whatever the z values, the
    other hands, the timestamps and the frames. *)
Theorem detectGesture_reads_only_xy_of_first_hand
    (hl1 hl2 : HandLandmarker) (now1 now2 : Q)
    (video1 video2 : HTMLVideoElement)
    (hand1 hand2 : list HandLandmark.t)
    (rest1 rest2 : list (list HandLandmark.t)) :
  landmarks (detectForVideo hl1 video1 now1) = Some (hand1 :: rest1) ->
  landmarks (detectForVideo hl2 video2 now2) = Some (hand2 :: rest2) ->
  map planar hand1 = map planar hand2 ->
  detectGesture (Some hl1) now1 video1 = detectGesture (Some hl2) now2 video2.
Proof.
  intros H1 H2 Hxy. unfold detectGesture. rewrite H1, H2.
  pose proof (nth_error_planar hand1 hand2 4 Hxy) as E4.
  pose proof (nth_error_planar hand1 hand2 8 Hxy) as E8.
  pose proof (nth_error_planar hand1 hand2 12 Hxy) as E12.
  pose proof (nth_error_planar hand1 hand2 16 Hxy) as E16.
  pose proof (nth_error_planar hand1 hand2 20 Hxy) as E20.
  pose proof (nth_error_planar hand1 hand2 0 Hxy) as E0.
  destruct (nth_error hand1 4) as [[tx ty tz]|],
           (nth_error hand2 4) as [[tx' ty' tz']|];
    try discriminate; [|reflexivity].
  destruct (nth_error hand1 8) as [[ix iy iz]|],
           (nth_error hand2 8) as [[ix' iy' iz']|];
    try discriminate; [|reflexivity].
  destruct (nth_error hand1 12) as [[mx my mz]|],
           (nth_error hand2 12) as [[mx' my' mz']|];
    try discriminate; [|reflexivity].
  destruct (nth_error hand1 16) as [[rx ry rz]|],
           (nth_error hand2 16) as [[rx' ry' rz']|];
    try discriminate; [|reflexivity].
  destruct (nth_error hand1 20) as [[px py pz]|],
           (nth_error hand2 20) as [[px' py' pz']|];
    try discriminate; [|reflexivity].
  destruct (nth_error hand1 0) as [[wx wy wz]|],
           (nth_error hand2 0) as [[wx' wy' wz']|];
    try discriminate; [|reflexivity].
  cbn [option_map planar HandLandmark.x HandLandmark.y] in *.
  injection E4 as <- <-. injection E8 as <- <-. injection E12 as <- <-.
  injection E16 as <- <-. injection E20 as <- <-. injection E0 as <- <-.
  reflexivity.
Qed.

Lemma Qltb_comp (a a' b b' : Q) :
  a == a' -> b == b' -> (a <? b) = (a' <? b').
Proof.
  intros Ha Hb. unfold Qltb. now rewrite (Qleb_comp b b' Hb a a' Ha).
Qed.

Lemma Qleb_comp' (a a' b b' : Q) :
  a == a' -> b == b' -> (a <=? b) = (a' <=? b').
Proof. intros Ha Hb. unfold Qleb. now rewrite (Qleb_comp a a' Ha b b' Hb). Qed.

Lemma planarDist_translate (dx dy : Q) (a b : HandLandmark.t) :
  (forall u v, u == v -> Math_sqrt u == Math_sqrt v) ->
  planarDist (translate dx dy a) (translate dx dy b) == planarDist a b.
Proof.
  intros Hsqrt. unfold planarDist, translate.
  cbn [HandLandmark.x HandLandmark.y]. apply Hsqrt. ring.
Qed.

(** X4.  When [Math.sqrt] gives equal results on equal numbers, moving a
    whole hand by [(dx, dy)] in the image changes nothing but the cursor,
    which moves by [(dx, dy)]: the gesture depends on the relative
    position of the landmarks only. *)
Theorem detectGesture_translation
    (hl1 hl2 : HandLandmarker) (now1 now2 : Q)
    (video1 video2 : HTMLVideoElement) (dx dy : Q)
    (hand : list HandLandmark.t) (rest1 rest2 : list (list HandLandmark.t)) :
  (forall u v, u == v -> Math_sqrt u == Math_sqrt v) ->
  landmarks (detectForVideo hl1 video1 now1) = Some (hand :: rest1) ->
  landmarks (detectForVideo hl2 video2 now2)
  = Some (map (translate dx dy) hand :: rest2) ->
  detectGesture (Some hl2) now2 video2
  = option_map
      (fun r => mkGestureResult (gesture r)
                                (option_map (translateCursor dx dy) (cursor r)))
      (detectGesture (Some hl1) now1 video1).
Proof.
  intros Hsqrt H1 H2. unfold detectGesture. rewrite H1, H2.
  rewrite !nth_error_map.
  destruct (nth_error hand 4) as [thumb|]; [|reflexivity].
  destruct (nth_error hand 8) as [index|]; [|reflexivity].
  destruct (nth_error hand 12) as [middle|]; [|reflexivity].
  destruct (nth_error hand 16) as [ring|]; [|reflexivity].
  destruct (nth_error hand 20) as [pinky|]; [|reflexivity].
  destruct (nth_error hand 0) as [wrist|]; [|reflexivity].
  cbn [option_map bind fold_left].
  fold (planarDist (translate dx dy thumb) (translate dx dy index))
       (planarDist (translate dx dy index) (translate dx dy wrist))
       (planarDist (translate dx dy middle) (translate dx dy wrist))
       (planarDist (translate dx dy ring) (translate dx dy wrist))
       (planarDist (translate dx dy pinky) (translate dx dy wrist))
       (planarDist thumb index) (planarDist index wrist)
       (planarDist middle wrist) (planarDist ring wrist)
       (planarDist pinky wrist).
  pose proof (planarDist_translate dx dy thumb index Hsqrt) as Ep.
  pose proof (planarDist_translate dx dy index wrist Hsqrt) as E1.
  pose proof (planarDist_translate dx dy middle wrist Hsqrt) as E2.
  pose proof (planarDist_translate dx dy ring wrist Hsqrt) as E3.
  pose proof (planarDist_translate dx dy pinky wrist Hsqrt) as E4.
  assert (Eavg : (0 + planarDist (translate dx dy index) (translate dx dy wrist)
                  + planarDist (translate dx dy middle) (translate dx dy wrist)
                  + planarDist (translate dx dy ring) (translate dx dy wrist)
                  + planarDist (translate dx dy pinky) (translate dx dy wrist))
                 / 4
                 == (0 + planarDist index wrist + planarDist middle wrist
                     + planarDist ring wrist + planarDist pinky wrist) / 4).
  { rewrite E1, E2, E3, E4. reflexivity. }
  unfold Qgtb.
  rewrite (Qltb_comp _ _ 0.05 0.05 Ep (Qeq_refl _)).
  rewrite (Qltb_comp _ _ 0.25 0.25 Eavg (Qeq_refl _)).
  rewrite (Qltb_comp 0.4 0.4 _ _ (Qeq_refl _) Eavg).
  destruct (planarDist thumb index <? 0.05); [reflexivity|].
  match goal with |- context [if ?b then _ else _] => destruct b end;
    [reflexivity|].
  match goal with |- context [if ?b then _ else _] => destruct b end;
    reflexivity.
Qed.

(** ** Further properties of the particle population *)

Lemma newParticle_draws (dims : Dimensions.t) (mobile : bool) (i n : nat) :
  snd (newParticle dims mobile i n) = (n + 10)%nat.
Proof. apply newParticle_spec. Qed.

Lemma newParticles_draws (dims : Dimensions.t) (mobile : bool) (k : nat) :
  forall i n, snd (newParticles dims mobile k i n) = (n + 10 * k)%nat.
Proof.
  induction k as [|k IH]; intros i n; cbn [newParticles].
  - cbn [ret snd]. lia.
  - unfold bindR at 1.
    pose proof (newParticle_draws dims mobile i n) as Hn.
    destruct (newParticle dims mobile i n) as [p n']. cbn [snd] in Hn. subst n'.
    unfold bindR at 1. specialize (IH (S i) (n + 10)%nat).
    destruct (newParticles dims mobile k (S i) (n + 10)%nat) as [ps n''].
    cbn [ret snd] in *. lia.
Qed.

(** The [j]-th particle of the loop is the one that the loop body makes at
    index [i + j] from draw [n + 10 j] on. *)
Lemma newParticles_nth_body (dims : Dimensions.t) (mobile : bool) (k : nat) :
  forall i n j,
    (j < k)%nat ->
    nth_error (fst (newParticles dims mobile k i n)) j
    = Some (fst (newParticle dims mobile (i + j)%nat (n + 10 * j)%nat)).
Proof.
  induction k as [|k IH]; intros i n j Hj; [lia|].
  cbn [newParticles]. unfold bindR at 1.
  pose proof (newParticle_draws dims mobile i n) as Hn.
  destruct (newParticle dims mobile i n) as [p n'] eqn:E.
  cbn [snd] in Hn. subst n'. unfold bindR at 1.
  destruct j as [|j].
  - destruct (newParticles dims mobile k (S i) (n + 10)%nat) as [ps n''].
    cbn [ret fst nth_error].
    replace (i + 0)%nat with i by lia. replace (n + 10 * 0)%nat with n by lia.
    now rewrite E.
  - specialize (IH (S i) (n + 10)%nat j ltac:(lia)).
    destruct (newParticles dims mobile k (S i) (n + 10)%nat) as [ps n''].
    cbn [ret fst nth_error] in *. rewrite IH.
    replace (S i + j)%nat with (i + S j)%nat by lia.
    replace (n + 10 + 10 * j)%nat with (n + 10 * S j)%nat by lia.
    reflexivity.
Qed.

(** The size class, the number of particles and the size of the tree
    after a resize. *)
Lemma handleResize_shape
    (innerWidth : Q) (canvas : option Canvas.t) (st : Scene) :
  let st' := handleResize innerWidth canvas st in
  isMobile st' = (innerWidth <? 768)
  /\ List.length (particlesRef st') = (if isMobile st' then 1200 else 1500)%nat
  /\ dimensions st' = (if isMobile st' then Dimensions.mk 400 140
                       else Dimensions.mk 600 220).
Proof.
  cbv zeta. unfold handleResize.
  pose proof (newParticles_length
                (Dimensions.mk (if innerWidth <? 768 then 400 else 600)
                               (if innerWidth <? 768 then 140 else 220))
                (innerWidth <? 768) (PARTICLE_COUNT (innerWidth <? 768)) 0
                (randomCalls st)) as Hlen.
  destruct (newParticles _ _ _ _ _) as [ps n].
  cbn [fst isMobile particlesRef dimensions] in *.
  rewrite Hlen. unfold PARTICLE_COUNT.
  destruct (innerWidth <? 768); repeat split.
Qed.

(** X5.  A resize rebuilds the whole population for the new size class:
    1200 particles on a 400 by 140 tree below 768 pixels of width, 1500 on
    a 600 by 220 tree otherwise; it makes exactly ten draws of
    [Math.random] per particle and leaves the photos, the rotation, the
    zoomed id and the explode flag as they were. *)
Theorem handleResize_rebuilds_population
    (innerWidth : Q) (canvas : option Canvas.t) (st : Scene) :
  let st' := handleResize innerWidth canvas st in
  isMobile st' = (innerWidth <? 768)
  /\ List.length (particlesRef st') = (if isMobile st' then 1200 else 1500)%nat
  /\ dimensions st' = (if isMobile st' then Dimensions.mk 400 140
                       else Dimensions.mk 600 220)
  /\ randomCalls st'
     = (randomCalls st + 10 * List.length (particlesRef st'))%nat
  /\ photoObjectsRef st' = photoObjectsRef st
  /\ rotationRef st' = rotationRef st
  /\ zoomedPhotoIdRef st' = zoomedPhotoIdRef st
  /\ isExploded st' = isExploded st
  /\ canvasRef st' = canvas.
Proof.
  cbv zeta. unfold handleResize.
  set (mobile := innerWidth <? 768).
  set (dims := Dimensions.mk (if mobile then 400 else 600)
                             (if mobile then 140 else 220)).
  pose proof (newParticles_length dims mobile (PARTICLE_COUNT mobile) 0
                                  (randomCalls st)) as Hlen.
  pose proof (newParticles_draws dims mobile (PARTICLE_COUNT mobile) 0
                                 (randomCalls st)) as Hdraws.
  destruct (newParticles dims mobile (PARTICLE_COUNT mobile) 0 (randomCalls st))
    as [ps n].
  cbn [fst snd] in Hlen, Hdraws.
  cbn [isMobile particlesRef dimensions randomCalls photoObjectsRef
       rotationRef zoomedPhotoIdRef isExploded canvasRef].
  rewrite Hlen, Hdraws. unfold dims, PARTICLE_COUNT.
  destruct mobile; repeat split.
Qed.

Lemma ofNat_ratio_range (i n : nat) :
  (i < n)%nat -> 0 <= ofNat i / ofNat n /\ ofNat i / ofNat n < 1.
Proof.
  intros H. unfold ofNat.
  assert (Hn : 0 < inject_Z (Z.of_nat n)).
  { rewrite <- (Zlt_Qlt 0). lia. }
  assert (Hi : 0 <= inject_Z (Z.of_nat i)).
  { rewrite <- (Zle_Qle 0). lia. }
  assert (Hin : inject_Z (Z.of_nat i) < inject_Z (Z.of_nat n)).
  { rewrite <- Zlt_Qlt. lia. }
  split.
  - apply Qle_shift_div_l; [exact Hn|]. lra.
  - apply Qlt_shift_div_r; [exact Hn|]. lra.
Qed.

Lemma newParticle_position (dims : Dimensions.t) (mobile : bool) (i n : nat) :
  let p := fst (newParticle dims mobile i n) in
  Particle.x p = Particle.baseX p
  /\ Particle.y p = Particle.baseY p
  /\ Particle.z p = Particle.baseZ p
  /\ Particle.baseY p
     = ofNat i / ofNat (PARTICLE_COUNT mobile) * Dimensions.height dims
       - Dimensions.height dims / 2.
Proof.
  cbv zeta. cbv [newParticle bindR random ret].
  match goal with
  | |- context [particleKind ?m ?r ?c ?s ?k] =>
    destruct (particleKind m r c s k) as [[[[ty col] sz] var] n']
  end.
  cbn [fst Particle.x Particle.y Particle.z Particle.baseX Particle.baseY
       Particle.baseZ].
  repeat split.
Qed.

(** X6.  Every particle of a rebuilt population starts at its rest
    position, and its rest height is linear in its index: particle [j] of
    [N] on a tree of height [H] rests at [j / N * H - H / 2], within
    [[- H / 2, H / 2)]. *)
Theorem rebuilt_particles_start_at_rest
    (innerWidth : Q) (canvas : option Canvas.t) (st : Scene) (j : nat)
    (p : Particle.t) :
  let st' := handleResize innerWidth canvas st in
  let H := Dimensions.height (dimensions st') in
  nth_error (particlesRef st') j = Some p ->
  Particle.x p = Particle.baseX p
  /\ Particle.y p = Particle.baseY p
  /\ Particle.z p = Particle.baseZ p
  /\ Particle.baseY p
     = ofNat j / ofNat (List.length (particlesRef st')) * H - H / 2
  /\ - H / 2 <= Particle.baseY p
  /\ Particle.baseY p < H / 2.
Proof.
  cbv zeta. intros Hp.
  assert (Hj : (j < List.length
                      (particlesRef (handleResize innerWidth canvas st)))%nat).
  { apply nth_error_Some. now rewrite Hp. }
  pose proof (handleResize_shape innerWidth canvas st) as HR.
  cbv zeta in HR. destruct HR as [Hm [Hlen Hdims]].
  revert Hp Hj Hlen Hdims. unfold handleResize.
  set (mobile := innerWidth <? 768).
  set (dims := Dimensions.mk (if mobile then 400 else 600)
                             (if mobile then 140 else 220)).
  pose proof (newParticles_nth_body dims mobile (PARTICLE_COUNT mobile) 0
                                    (randomCalls st) j) as Hnth.
  pose proof (newParticles_length dims mobile (PARTICLE_COUNT mobile) 0
                                  (randomCalls st)) as Hlen'.
  destruct (newParticles dims mobile (PARTICLE_COUNT mobile) 0 (randomCalls st))
    as [ps n].
  cbn [fst particlesRef dimensions isMobile] in *.
  intros Hp Hj Hlen Hdims.
  rewrite Hnth in Hp by lia.
  assert (E : p = fst (newParticle dims mobile j (randomCalls st + 10 * j)%nat))
    by (injection Hp as <-; reflexivity).
  clear Hp. subst p.
  pose proof (newParticle_position dims mobile j
                                   (randomCalls st + 10 * j)%nat) as Hpos.
  cbv zeta in Hpos. destruct Hpos as [Hx [Hy [Hz Hb]]].
  rewrite Hlen'.
  pose proof (ofNat_ratio_range j (PARTICLE_COUNT mobile) ltac:(lia))
    as [Ht0 Ht1].
  split; [exact Hx|]. split; [exact Hy|]. split; [exact Hz|].
  split; [exact Hb|]. rewrite Hb. unfold dims. cbn [Dimensions.height].
  revert Ht0 Ht1.
  generalize (ofNat j / ofNat (PARTICLE_COUNT mobile)). intros t Ht0 Ht1.
  destruct mobile; cbv iota; split; clear - Ht0 Ht1;
    unfold Qdiv; change (/ 2) with (1 # 2); lra.
Qed.

Lemma floor_scaled_range (c : Q) (m : nat) :
  0 <= c -> c < 1 -> (0 < m)%nat ->
  (0 <= Math_floor (c * ofNat m) < Z.of_nat m)%Z.
Proof.
  intros H0 H1 Hm. unfold Math_floor, ofNat.
  assert (Hpos : 0 < inject_Z (Z.of_nat m)) by (rewrite <- (Zlt_Qlt 0); lia).
  split.
  - change 0%Z with (Qfloor 0). apply Qfloor_resp_le.
    apply Qmult_le_0_compat; [exact H0 | lra].
  - rewrite Zlt_Qlt.
    eapply Qle_lt_trans; [apply Qfloor_le|].
    rewrite <- (Qmult_1_l (inject_Z (Z.of_nat m))) at 2.
    apply Qmult_lt_compat_r; [exact Hpos | exact H1].
Qed.

Lemma index_scaled (A : Type) (l : list A) (c : Q) :
  0 <= c -> c < 1 -> l <> [] ->
  exists a, index l (Math_floor (c * ofNat (List.length l))) = Some a /\ In a l.
Proof.
  intros H0 H1 Hl.
  assert (Hm : (0 < List.length l)%nat) by (destruct l; [contradiction | cbn; lia]).
  pose proof (floor_scaled_range c (List.length l) H0 H1 Hm) as [Hlo Hhi].
  unfold index.
  destruct (Z.ltb_spec (Math_floor (c * ofNat (List.length l))) 0); [lia|].
  destruct (nth_error l (Z.to_nat (Math_floor (c * ofNat (List.length l)))))
    as [a|] eqn:E.
  - exists a. split; [reflexivity|]. eapply nth_error_In. exact E.
  - apply nth_error_None in E. lia.
Qed.

Lemma newParticle_attributes (dims : Dimensions.t) (mobile : bool) (i n : nat) :
  (forall k, 0 <= Math_random k /\ Math_random k < 1) ->
  particleAttributesInRange mobile (fst (newParticle dims mobile i n)).
Proof.
  intros Hr. unfold particleAttributesInRange.
  cbv [newParticle particleKind bindR random ret].
  destruct (index_scaled string GOLDEN_PALETTE
                         (Math_random (S (S (S (S (S n))))))
                         (proj1 (Hr _)) (proj2 (Hr _)) ltac:(discriminate))
    as [c [Hc Hin]].
  pose proof (Hr (S (S (S (S (S (S (S n)))))))) as [Hs0 Hs1].
  pose proof (floor_scaled_range (Math_random (S (S (S (S (S (S (S n))))))))
                                 (List.length GIFT_PAIRS) Hs0 Hs1
                                 ltac:(cbn; lia)) as Hv.
  destruct (Math_random (S (S (S (S n)))) <? 0.10);
    [|destruct (Math_random (S (S (S (S n)))) <? 0.18)];
    cbn [fst snd Particle.twinkleSpeed Particle.type Particle.color
         Particle.size Particle.variant];
    (split; [|split]);
    try (destruct (Hr (S (S (S (S (S (S (S (S (S n)))))))))) as [Hp0 Hp1]; lra).
  - repeat split; lra.
  - split; [exists c; split; [exact Hc | exact Hin]|].
    split; [reflexivity | exact Hv].
  - split; [exists c; split; [exact Hc | exact Hin]|].
    destruct mobile; repeat split; lra.
Qed.

(** The particles of the creation loop have their attributes in range. *)
Lemma newParticles_attributes (dims : Dimensions.t) (mobile : bool)
    (k i n : nat) :
  (forall k, 0 <= Math_random k /\ Math_random k < 1) ->
  Forall (particleAttributesInRange mobile)
         (fst (newParticles dims mobile k i n)).
Proof.
  intros Hr. apply Forall_forall. intros p Hin.
  apply In_nth_error in Hin as [j Hj].
  assert (Hlt : (j < List.length (fst (newParticles dims mobile k i n)))%nat).
  { apply nth_error_Some. now rewrite Hj. }
  rewrite newParticles_length in Hlt.
  rewrite newParticles_nth_body in Hj by exact Hlt.
  injection Hj as <-. now apply newParticle_attributes.
Qed.

(** X7.  When every draw of [Math.random] lies in [[0, 1)], every particle
    of a rebuilt population has its attributes in range: a colour that is
    defined and belongs to the palette (white for a sparkle), a variant that
    indexes [GIFT_PAIRS], a size within the range of its kind and size
    class, a twinkle speed in [[0.003, 0.007)]. *)
Theorem rebuilt_particles_in_range
    (innerWidth : Q) (canvas : option Canvas.t) (st : Scene) :
  (forall k, 0 <= Math_random k /\ Math_random k < 1) ->
  Forall (particleAttributesInRange (innerWidth <? 768))
         (particlesRef (handleResize innerWidth canvas st)).
Proof.
  intros Hr. unfold handleResize.
  pose proof (newParticles_attributes
                (Dimensions.mk (if innerWidth <? 768 then 400 else 600)
                               (if innerWidth <? 768 then 140 else 220))
                (innerWidth <? 768) (PARTICLE_COUNT (innerWidth <? 768)) 0
                (randomCalls st) Hr) as H.
  destruct (newParticles _ _ _ _ _) as [ps n]. exact H.
Qed.

(** ** Further properties of the photo population *)

Lemma pushPhotos_spec (newImgs : list HTMLImageElement.t) :
  forall objs n,
  exists news,
    fst (pushPhotos newImgs objs n) = objs ++ news
    /\ Forall2 freshPhotoOf newImgs news
    /\ snd (pushPhotos newImgs objs n) = (n + 4 * List.length newImgs)%nat.
Proof.
  induction newImgs as [|img rest IH]; intros objs n.
  - exists []. cbn [pushPhotos ret fst snd List.length].
    rewrite app_nil_r. repeat split; [constructor | lia].
  - cbn [pushPhotos]. unfold bindR.
    assert (Hn : snd (newPhoto img n) = (n + 4)%nat).
    { cbv [newPhoto bindR random ret snd]. lia. }
    assert (Hf : freshPhotoOf img (fst (newPhoto img n))).
    { cbv [newPhoto bindR random ret fst]. repeat split. }
    destruct (newPhoto img n) as [p n']. cbn [fst snd] in Hn, Hf. subst n'.
    cbv beta iota.
    destruct (IH (objs ++ [p]) (n + 4)%nat) as [news [H1 [H2 H3]]].
    exists (p :: news). rewrite H1, H3, <- app_assoc. cbn [app List.length].
    repeat split; [now constructor | lia].
Qed.

(** The photo effect on a prop that holds an image. *)
Lemma syncPhotos_cons
    (img : HTMLImageElement.t) (photos : list HTMLImageElement.t)
    (st : Scene) :
  exists news,
    syncPhotos (img :: photos) st
    = mkScene (particlesRef st) (photoObjectsRef st ++ news)
              (rotationRef st) (zoomedPhotoIdRef st) (isExploded st)
              (canvasRef st) (dimensions st) (isMobile st)
              (randomCalls st + 4 * List.length news)
    /\ Forall2 freshPhotoOf
               (skipn (List.length (photoObjectsRef st)) (img :: photos)) news.
Proof.
  unfold syncPhotos. cbn [List.length Nat.eqb].
  destruct (Nat.ltb_spec (List.length (photoObjectsRef st))
                         (S (List.length photos))) as [Hlt | Hge].
  - destruct (pushPhotos_spec
                (skipn (List.length (photoObjectsRef st)) (img :: photos))
                (photoObjectsRef st) (randomCalls st))
      as [news [H1 [H2 H3]]].
    exists news.
    destruct (pushPhotos _ _ _) as [objs n]. cbn [fst snd] in H1, H3.
    subst objs n. rewrite (Forall2_length H2). split; [reflexivity | exact H2].
  - exists []. rewrite app_nil_r, Nat.add_0_r.
    rewrite skipn_all2 by (cbn [List.length]; lia).
    split; [now destruct st | constructor].
Qed.

(** X8.  The photo effect only ever appends or clears.  With no photos it
    empties the photo objects and clears the zoomed id.  Otherwise it keeps
    every photo object it has, in order, and appends one object for each
    image beyond them, in order of arrival: at the origin, fully
    transparent, 120 wide, with four draws of [Math.random] each; when the
    prop holds no more images than there are objects, nothing changes. *)
Theorem syncPhotos_appends_or_clears
    (photos : list HTMLImageElement.t) (st : Scene) :
  (photos = [] ->
   syncPhotos photos st
   = mkScene (particlesRef st) [] (rotationRef st) None (isExploded st)
             (canvasRef st) (dimensions st) (isMobile st) (randomCalls st))
  /\ (photos <> [] ->
      exists news,
        syncPhotos photos st
        = mkScene (particlesRef st) (photoObjectsRef st ++ news)
                  (rotationRef st) (zoomedPhotoIdRef st) (isExploded st)
                  (canvasRef st) (dimensions st) (isMobile st)
                  (randomCalls st + 4 * List.length news)
        /\ Forall2 freshPhotoOf
                   (skipn (List.length (photoObjectsRef st)) photos) news).
Proof.
  split.
  - intros ->. reflexivity.
  - intros Hne. destruct photos as [|img photos]; [contradiction|].
    apply syncPhotos_cons.
Qed.

Lemma updatePhoto_id (zoomed : option string) (exploded : bool)
    (p : PhotoObject.t) :
  PhotoObject.id (updatePhoto zoomed exploded p) = PhotoObject.id p.
Proof.
  unfold updatePhoto.
  destruct (photoTarget zoomed exploded p) as [[[tx ty] tz] o]. reflexivity.
Qed.

Lemma handleInteraction_zoomed (X Y : Q) (right : bool) (st : Scene) (id : string) :
  zoomedPhotoIdRef (handleInteraction X Y right st) = Some id ->
  zoomedPhotoIdRef st = Some id
  \/ (isExploded st = true
      /\ id <> EmptyString
      /\ exists p, In p (photoObjectsRef st) /\ PhotoObject.id p = id
                   /\ 0.5 < PhotoObject.opacity p).
Proof.
  unfold handleInteraction.
  destruct right; [discriminate|].
  destruct (isExploded st) eqn:Hexp; cbn [negb]; [|now left].
  destruct (truthy (zoomedPhotoIdRef st)); [discriminate|].
  destruct (canvasRef st) as [canvas|]; [|now left].
  match goal with |- context [truthy ?c] => destruct (truthy c) eqn:E end;
    [|now left].
  cbn [setZoomedPhotoId zoomedPhotoIdRef]. intros Hc. right.
  rewrite Hc in E. apply truthy_true in E as [s [[= <-] Hs]].
  apply clickedId_some in Hc as [before [p [after [Hcs [_ [_ Hid]]]]]].
  split; [reflexivity|]. split; [exact Hs|]. exists p.
  assert (Hin : In p (candidates (Math_cos (rotationRef st))
                                 (Math_sin (rotationRef st))
                                 (photoObjectsRef st))).
  { rewrite Hcs. apply in_or_app. right. now left. }
  apply candidates_In in Hin as [Hin Ho]. now repeat split.
Qed.

Lemma handleInteraction_isExploded_after_zoom (X Y : Q) (right : bool)
    (st : Scene) :
  zoomOnlyWhenExploded st -> zoomOnlyWhenExploded (handleInteraction X Y right st).
Proof.
  unfold zoomOnlyWhenExploded, handleInteraction. intros H.
  destruct right; [intros F; now contradiction F|].
  destruct (isExploded st) eqn:Hexp; cbn [negb]; [|reflexivity].
  destruct (truthy (zoomedPhotoIdRef st));
    [intros _; exact Hexp|].
  destruct (canvasRef st); [|intros _; exact Hexp].
  match goal with |- context [truthy ?c] => destruct (truthy c) end;
    intros _; exact Hexp.
Qed.

Lemma step_zoomedIsLive (st : Scene) (e : Event) :
  zoomedIsLive st -> zoomedIsLive (step st e).
Proof.
  unfold zoomedIsLive. intros H. destruct e; cbn [step].
  - intros id Hid. destruct (H id Hid) as [Hne [p [Hin Hp]]].
    split; [exact Hne|].
    exists (updatePhoto (zoomedPhotoIdRef st) (isExploded st) p).
    split; [|now rewrite updatePhoto_id].
    unfold updatePhysics. cbn [photoObjectsRef]. now apply in_map.
  - unfold onMouseDown. destruct (canvasRef st); [|exact H].
    intros id Hid. rewrite handleInteraction_photos.
    apply handleInteraction_zoomed in Hid as [Hid | [_ [Hne [p [Hin [Hp _]]]]]];
      [now apply H | split; [exact Hne | now exists p]].
  - intros id Hid. rewrite gestureEffect_photos. revert Hid.
    unfold gestureEffect.
    destruct currentGesture; cbn [GestureType_eqb andb]; try apply H.
    + destruct (negb (isExploded st)); apply H.
    + discriminate.
    + destruct gestureCursor; [|apply H].
      destruct (canvasRef st); [|apply H].
      intros Hid.
      apply handleInteraction_zoomed in Hid as [Hid | [_ [Hne [p [Hin [Hp _]]]]]];
        [now apply H | split; [exact Hne | now exists p]].
  - destruct photos as [|img photos].
    + discriminate.
    + destruct (syncPhotos_cons img photos st) as [news [-> _]].
      cbn [zoomedPhotoIdRef photoObjectsRef]. intros id Hid.
      destruct (H id Hid) as [Hne [p [Hin Hp]]]. split; [exact Hne|].
      exists p. split; [apply in_or_app; now left | exact Hp].
  - unfold handleResize. destruct (newParticles _ _ _ _ _). exact H.
Qed.

(** X9.  In every state that the component reaches, the zoomed id, when
    set, is the non-empty id of a photo that is in the scene; every
    transition keeps that. *)
Theorem zoomed_id_names_a_live_photo (events : list Event) :
  zoomedIsLive (run initialScene events)
  /\ (forall st e, zoomedIsLive st -> zoomedIsLive (step st e)).
Proof.
  split; [|apply step_zoomedIsLive].
  assert (H : forall evs st, zoomedIsLive st -> zoomedIsLive (run st evs)).
  { induction evs as [|e evs IH]; intros st Hst; [exact Hst|].
    cbn [run fold_left]. apply IH. now apply step_zoomedIsLive. }
  apply H. intros id. discriminate.
Qed.

Lemma step_zoomOnlyWhenExploded (st : Scene) (e : Event) :
  zoomOnlyWhenExploded st -> zoomOnlyWhenExploded (step st e).
Proof.
  intros H. destruct e; cbn [step].
  - exact H.
  - unfold onMouseDown. destruct (canvasRef st); [|exact H].
    now apply handleInteraction_isExploded_after_zoom.
  - unfold gestureEffect.
    destruct currentGesture; cbn [GestureType_eqb andb]; try exact H.
    + destruct (negb (isExploded st)) eqn:E; [|exact H].
      intros _. reflexivity.
    + intros F. now contradiction F.
    + destruct gestureCursor; [|exact H].
      destruct (canvasRef st); [|exact H].
      now apply handleInteraction_isExploded_after_zoom.
  - unfold syncPhotos.
    destruct (List.length photos =? 0)%nat;
      [intros F; now contradiction F|].
    destruct (List.length (photoObjectsRef st) <? List.length photos)%nat;
      [|exact H].
    destruct (pushPhotos _ _ _). exact H.
  - unfold handleResize. destruct (newParticles _ _ _ _ _). exact H.
Qed.

(** X10.  In every state that the component reaches a photo is zoomed
    only while the scene is exploded: the three states COLLAPSED, EXPLODED
    and EXPLODED with a zoomed photo are the only ones. *)
Theorem zoom_only_when_exploded (events : list Event) :
  zoomOnlyWhenExploded (run initialScene events)
  /\ (forall st e, zoomOnlyWhenExploded st -> zoomOnlyWhenExploded (step st e)).
Proof.
  split; [|apply step_zoomOnlyWhenExploded].
  assert (H : forall evs st,
             zoomOnlyWhenExploded st -> zoomOnlyWhenExploded (run st evs)).
  { induction evs as [|e evs IH]; intros st Hst; [exact Hst|].
    cbn [run fold_left]. apply IH. now apply step_zoomOnlyWhenExploded. }
  apply H. intros F. now contradiction F.
Qed.

(** ** Further properties of the physics step *)

Lemma photoTarget_updatePhoto (zoomed zoomed' : option string)
    (exploded exploded' : bool) (p : PhotoObject.t) :
  photoTarget zoomed exploded (updatePhoto zoomed' exploded' p)
  = photoTarget zoomed exploded p.
Proof.
  unfold updatePhoto.
  destruct (photoTarget zoomed' exploded' p) as [[[tx ty] tz] o].
  reflexivity.
Qed.

Lemma frames_zoomed (n : nat) (st : Scene) :
  zoomedPhotoIdRef (frames n st) = zoomedPhotoIdRef st.
Proof.
  induction n as [|n IH]; [reflexivity|].
  change (frames (S n) st) with (updatePhysics (frames n st)).
  now rewrite updatePhysics_zoomed.
Qed.

(** Over [n] frames every photo is eased [n] times toward the target that
    the zoomed id and the explode flag fix for it. *)
Lemma frames_photos (n : nat) (st : Scene) :
  photoObjectsRef (frames n st)
  = map (fun p =>
           let '(tx, ty, tz, o) :=
             photoTarget (zoomedPhotoIdRef st) (isExploded st) p in
           PhotoObject.setPositionOpacity p
             (Nat.iter n (easeToward tx) (PhotoObject.x p))
             (Nat.iter n (easeToward ty) (PhotoObject.y p))
             (Nat.iter n (easeToward tz) (PhotoObject.z p))
             (Nat.iter n (easeToward o) (PhotoObject.opacity p)))
        (photoObjectsRef st).
Proof.
  induction n as [|n IH].
  - unfold frames. simpl Nat.iter.
    rewrite <- (map_id (photoObjectsRef st)) at 1.
    apply map_ext. intros p.
    destruct (photoTarget _ _ p) as [[[tx ty] tz] o]. now destruct p.
  - change (frames (S n) st) with (updatePhysics (frames n st)).
    unfold updatePhysics at 1. cbn [photoObjectsRef].
    rewrite IH, frames_isExploded, frames_zoomed, map_map.
    apply map_ext. intros p. unfold updatePhoto.
    destruct (photoTarget (zoomedPhotoIdRef st) (isExploded st) p)
      as [[[tx ty] tz] o] eqn:E.
    replace (photoTarget (zoomedPhotoIdRef st) (isExploded st)
               (PhotoObject.setPositionOpacity p
                  (Nat.iter n (easeToward tx) (PhotoObject.x p))
                  (Nat.iter n (easeToward ty) (PhotoObject.y p))
                  (Nat.iter n (easeToward tz) (PhotoObject.z p))
                  (Nat.iter n (easeToward o) (PhotoObject.opacity p))))
      with (tx, ty, tz, o) by (rewrite <- E; reflexivity).
    reflexivity.
Qed.

(** X11.  While nothing but frames happens, the target of every photo is
    fixed and each of its four animated values closes in on it
    geometrically: after [n] frames the distance of x, y, z and opacity to
    their targets is [0.95 ^ n] times what it was. *)
Theorem frames_ease_photos_geometrically
    (n : nat) (st : Scene) (i : nat) (p : PhotoObject.t) :
  nth_error (photoObjectsRef st) i = Some p ->
  exists p',
    nth_error (photoObjectsRef (frames n st)) i = Some p'
    /\ photoTarget (zoomedPhotoIdRef (frames n st)) (isExploded (frames n st)) p'
       = photoTarget (zoomedPhotoIdRef st) (isExploded st) p
    /\ (forall tx ty tz o,
           photoTarget (zoomedPhotoIdRef st) (isExploded st) p = (tx, ty, tz, o) ->
           Qabs (tx - PhotoObject.x p') == decay n * Qabs (tx - PhotoObject.x p)
           /\ Qabs (ty - PhotoObject.y p') == decay n * Qabs (ty - PhotoObject.y p)
           /\ Qabs (tz - PhotoObject.z p') == decay n * Qabs (tz - PhotoObject.z p)
           /\ Qabs (o - PhotoObject.opacity p')
              == decay n * Qabs (o - PhotoObject.opacity p)).
Proof.
  intros Hp. rewrite frames_photos, frames_zoomed, frames_isExploded.
  rewrite nth_error_map, Hp. cbn [option_map].
  destruct (photoTarget (zoomedPhotoIdRef st) (isExploded st) p)
    as [[[tx ty] tz] o] eqn:E.
  eexists. split; [reflexivity|]. split.
  - rewrite <- E. reflexivity.
  - intros tx' ty' tz' o' [= <- <- <- <-].
    cbn [PhotoObject.setPositionOpacity PhotoObject.x PhotoObject.y
         PhotoObject.z PhotoObject.opacity].
    repeat split; apply iter_easeToward_distance.
Qed.

Lemma decay_13_14 : 0.5 < decay 13 /\ decay 14 < 0.5.
Proof. split; vm_compute; reflexivity. Qed.

(** X12.  A hidden photo becomes selectable 14 frames after the explosion
    and no sooner: in the exploded state with no photo zoomed, a photo of
    opacity 0 has, [n] frames later, an opacity above the 0.5 that the hit
    test asks for exactly when [n] is at least 14. *)
Theorem photo_selectable_from_frame_14
    (n : nat) (st : Scene) (i : nat) (p : PhotoObject.t) :
  isExploded st = true ->
  zoomedPhotoIdRef st = None ->
  nth_error (photoObjectsRef st) i = Some p ->
  PhotoObject.opacity p == 0 ->
  exists p',
    nth_error (photoObjectsRef (frames n st)) i = Some p'
    /\ PhotoObject.opacity p' == 1 - decay n
    /\ ((PhotoObject.opacity p' >? 0.5) = true <-> (14 <= n)%nat).
Proof.
  intros Hexp Hzoom Hp Ho.
  rewrite frames_photos, nth_error_map, Hp. cbn [option_map].
  unfold photoTarget. rewrite Hzoom, Hexp. cbn [strictEq truthy].
  eexists. split; [reflexivity|].
  cbn [PhotoObject.setPositionOpacity PhotoObject.opacity].
  assert (Hle : Nat.iter n (easeToward 1) (PhotoObject.opacity p) <= 1).
  { apply iter_easeToward_below. lra. }
  pose proof (iter_easeToward_distance 1 (PhotoObject.opacity p) n) as Hd.
  rewrite (Qabs_pos (1 - Nat.iter n (easeToward 1) (PhotoObject.opacity p)))
    in Hd by lra.
  rewrite (Qabs_pos (1 - PhotoObject.opacity p)) in Hd by lra.
  assert (Hone : decay n * (1 - PhotoObject.opacity p) == decay n)
    by (rewrite Ho; ring).
  assert (Hval : Nat.iter n (easeToward 1) (PhotoObject.opacity p)
                 == 1 - decay n) by lra.
  split; [exact Hval|].
  unfold Qgtb. rewrite Qltb_lt, Hval.
  destruct decay_13_14 as [H13 H14]. split.
  - intros H. destruct (Nat.lt_ge_cases n 14) as [Hlt | Hge]; [|exact Hge].
    pose proof (decay_antitone n 13 ltac:(lia)). lra.
  - intros H. pose proof (decay_antitone 14 n H). lra.
Qed.

Lemma step_quiet_hidden (st : Scene) (e : Event) :
  quiet e ->
  isExploded st = false /\ zoomedPhotoIdRef st = None
  /\ Forall hiddenAtCentre (photoObjectsRef st) ->
  isExploded (step st e) = false /\ zoomedPhotoIdRef (step st e) = None
  /\ Forall hiddenAtCentre (photoObjectsRef (step st e)).
Proof.
  intros Hq [Hexp [Hzoom Hh]]. destruct e; cbn [step quiet] in *.
  - repeat split; [exact Hexp | exact Hzoom|].
    unfold updatePhysics. cbn [photoObjectsRef]. apply Forall_map.
    eapply Forall_impl; [|exact Hh].
    intros p [Hx [Hy [Hz [Ho [Hbx [Hby Hbz]]]]]]. unfold updatePhoto, photoTarget.
    rewrite Hzoom, Hexp. cbn [strictEq truthy].
    unfold hiddenAtCentre, easeToward, ease.
    cbn [PhotoObject.setPositionOpacity PhotoObject.x PhotoObject.y
         PhotoObject.z PhotoObject.opacity PhotoObject.baseX
         PhotoObject.baseY PhotoObject.baseZ].
    repeat split; lra.
  - subst button. unfold onMouseDown.
    destruct (canvasRef st); [|now repeat split].
    cbn [Z.eqb Pos.eqb handleInteraction]. repeat split. exact Hh.
  - destruct Hq as [Hq1 Hq2]. unfold gestureEffect. rewrite Hexp.
    destruct currentGesture; cbn [GestureType_eqb andb negb];
      try contradiction; now repeat split.
  - destruct photos as [|img photos].
    + repeat split; [exact Hexp | constructor].
    + destruct (syncPhotos_cons img photos st) as [news [-> Hf]].
      cbn [isExploded zoomedPhotoIdRef photoObjectsRef].
      repeat split; [exact Hexp | exact Hzoom|].
      apply Forall_app. split; [exact Hh|].
      clear - Hf. induction Hf as [|img' p imgs ps Hp _ IH]; constructor;
        [|exact IH].
      destruct Hp as [_ [_ [_ [Hxyz [Hbase Ho]]]]].
      injection Hxyz as Hx Hy Hz. injection Hbase as Hbx Hby Hbz.
      unfold hiddenAtCentre. rewrite Hx, Hy, Hz, Ho, Hbx, Hby, Hbz.
      repeat split; reflexivity.
  - unfold handleResize. destruct (newParticles _ _ _ _ _).
    now repeat split.
Qed.

(** X13.  Photos stay hidden until the tree is first exploded: after any
    sequence of frames, photo changes, resizes, secondary clicks and
    gestures other than OPEN_PALM and PINCH from the initial state, the
    scene is collapsed, no photo is zoomed and every photo is at the origin
    with opacity 0. *)
Theorem photos_hidden_until_exploded (events : list Event) :
  Forall quiet events ->
  isExploded (run initialScene events) = false
  /\ zoomedPhotoIdRef (run initialScene events) = None
  /\ Forall hiddenAtCentre (photoObjectsRef (run initialScene events)).
Proof.
  assert (H : forall evs st,
             Forall quiet evs ->
             isExploded st = false /\ zoomedPhotoIdRef st = None
             /\ Forall hiddenAtCentre (photoObjectsRef st) ->
             isExploded (run st evs) = false
             /\ zoomedPhotoIdRef (run st evs) = None
             /\ Forall hiddenAtCentre (photoObjectsRef (run st evs))).
  { induction evs as [|e evs IH]; intros st Hq Hst; [exact Hst|].
    inversion Hq; subst. cbn [run fold_left]. apply IH; [assumption|].
    now apply step_quiet_hidden. }
  intros Hq. apply H; [exact Hq|]. repeat split. constructor.
Qed.

Lemma iter_easeToward_fixed (target v : Q) (n : nat) :
  v == target -> Nat.iter n (easeToward target) v == v.
Proof.
  intros H. induction n as [|n IH]; simpl Nat.iter; [reflexivity|].
  unfold easeToward at 1, ease. rewrite IH. lra.
Qed.

(** X14.  A collapsed tree at rest is stationary: when the explode flag
    is off and every particle is at its rest position, no number of frames
    moves any particle. *)
Theorem collapsed_tree_at_rest_is_stationary (n : nat) (st : Scene) :
  isExploded st = false ->
  Forall particleAtRest (particlesRef st) ->
  Forall2 samePlace (particlesRef st) (particlesRef (frames n st)).
Proof.
  intros Hexp Hrest. rewrite frames_particles, Hexp.
  induction Hrest as [|p ps [Hx [Hy Hz]] _ IH]; cbn [map]; constructor;
    [|exact IH].
  unfold samePlace.
  cbn [Particle.setPosition Particle.x Particle.y Particle.z].
  repeat split; now apply iter_easeToward_fixed.
Qed.

(** ** Further properties of the interaction controller *)

Lemma handleInteraction_sameWorld (X Y : Q) (right : bool) (st : Scene) :
  sameWorld st (handleInteraction X Y right st).
Proof.
  destruct st as [ps hs r z e c d m n].
  unfold handleInteraction, sameWorld.
  cbn [isExploded zoomedPhotoIdRef canvasRef].
  destruct right; [now repeat split|].
  destruct (negb e); [now repeat split|].
  destruct (truthy z); [now repeat split|].
  destruct c; [|now repeat split].
  match goal with |- context [if ?b then _ else _] => destruct b end;
    now repeat split.
Qed.

Lemma onMouseDown_sameWorld (clientX clientY : Q) (button : Z) (st : Scene) :
  sameWorld st (onMouseDown clientX clientY button st).
Proof.
  unfold onMouseDown.
  destruct (canvasRef st) eqn:E; [apply handleInteraction_sameWorld|].
  now repeat split.
Qed.

Lemma gestureEffect_sameWorld (currentGesture : GestureType)
    (gestureCursor : option Cursor.t) (st : Scene) :
  sameWorld st (gestureEffect currentGesture gestureCursor st).
Proof.
  unfold gestureEffect.
  destruct currentGesture; cbn [GestureType_eqb andb]; try (now repeat split).
  - destruct (negb (isExploded st)); now repeat split.
  - destruct gestureCursor; [|now repeat split].
    destruct (canvasRef st) eqn:E; [|now repeat split].
    apply handleInteraction_sameWorld.
Qed.

(** X15.  Interaction writes the mode and nothing else: a click, through
    [handleInteraction] or [onMouseDown], and the gesture effect leave the
    particles, the photos, the rotation, the canvas, the dimensions, the
    size class and the count of random draws as they are. *)
Theorem interaction_writes_only_the_mode (st : Scene) :
  (forall inputX inputY isRightClick,
      sameWorld st (handleInteraction inputX inputY isRightClick st))
  /\ (forall clientX clientY button,
         sameWorld st (onMouseDown clientX clientY button st))
  /\ (forall currentGesture gestureCursor,
         sameWorld st (gestureEffect currentGesture gestureCursor st)).
Proof.
  split; [|split]; intros.
  - apply handleInteraction_sameWorld.
  - apply onMouseDown_sameWorld.
  - apply gestureEffect_sameWorld.
Qed.

(** X16.  A primary click never collapses the tree, and while a photo is
    zoomed it does nothing but un-zoom: wherever it lands, it selects no
    other photo. *)
Theorem primary_click_never_collapses (inputX inputY : Q) (st : Scene) :
  isExploded (handleInteraction inputX inputY false st) = true
  /\ (isExploded st = true ->
      truthy (zoomedPhotoIdRef st) = true ->
      handleInteraction inputX inputY false st = setZoomedPhotoId None st)
  /\ (isExploded st = false ->
      handleInteraction inputX inputY false st = onToggleExplode true st).
Proof.
  unfold handleInteraction. split; [|split].
  - destruct (isExploded st) eqn:Hexp; cbn [negb]; [|reflexivity].
    destruct (truthy (zoomedPhotoIdRef st)); [exact Hexp|].
    destruct (canvasRef st); [|exact Hexp].
    match goal with |- context [if ?b then _ else _] => destruct b end;
      exact Hexp.
  - intros -> ->. reflexivity.
  - intros ->. reflexivity.
Qed.

Lemma hits_comp (cx cy cos sin X X' Y Y' : Q) (p : PhotoObject.t) :
  X == X' -> Y == Y' ->
  hits cx cy cos sin X Y p = hits cx cy cos sin X' Y' p.
Proof.
  intros HX HY. unfold hits.
  destruct (FOCAL_LENGTH / (FOCAL_LENGTH + _) <=? 0); [reflexivity|].
  unfold Qgeb.
  rewrite (Qleb_comp' _ _ X X' (Qeq_refl _) HX).
  rewrite (Qleb_comp' X X' _ _ HX (Qeq_refl _)).
  rewrite (Qleb_comp' _ _ Y Y' (Qeq_refl _) HY).
  rewrite (Qleb_comp' Y Y' _ _ HY (Qeq_refl _)).
  reflexivity.
Qed.

Lemma clickedId_comp (cx cy cos sin X X' Y Y' : Q) (l : list PhotoObject.t) :
  X == X' -> Y == Y' ->
  clickedId cx cy cos sin X Y l = clickedId cx cy cos sin X' Y' l.
Proof.
  intros HX HY. induction l as [|p l IH]; [reflexivity|].
  cbn [clickedId]. rewrite (hits_comp cx cy cos sin X X' Y Y' p HX HY).
  now rewrite IH.
Qed.

Lemma handleInteraction_comp (X X' Y Y' : Q) (right : bool) (st : Scene) :
  X == X' -> Y == Y' ->
  handleInteraction X Y right st = handleInteraction X' Y' right st.
Proof.
  intros HX HY. unfold handleInteraction.
  destruct right; [reflexivity|].
  destruct (negb (isExploded st)); [reflexivity|].
  destruct (truthy (zoomedPhotoIdRef st)); [reflexivity|].
  destruct (canvasRef st); [|reflexivity].
  now rewrite (clickedId_comp _ _ _ _ X X' Y Y' _ HX HY).
Qed.

(** X17.  A pinch is a primary click at the mirrored cursor: on a mounted
    canvas, the gesture effect for PINCH with cursor [(cx, cy)] does what a
    press of a button other than the secondary one does at the client point
    [(left + (1 - cx) * width, top + cy * height)] of the canvas
    rectangle. *)
Theorem pinch_is_click_at_mirrored_cursor
    (c : Cursor.t) (canvas : Canvas.t) (button : Z) (st : Scene) :
  canvasRef st = Some canvas ->
  button <> 2%Z ->
  gestureEffect PINCH (Some c) st
  = onMouseDown
      (Canvas.rectLeft canvas + (1 - Cursor.x c) * Canvas.rectWidth canvas)
      (Canvas.rectTop canvas + Cursor.y c * Canvas.rectHeight canvas)
      button st.
Proof.
  intros Hc Hb. unfold gestureEffect, onMouseDown.
  cbn [GestureType_eqb andb]. rewrite Hc.
  destruct (Z.eqb_spec button 2) as [E | _]; [contradiction|].
  apply handleInteraction_comp; ring.
Qed.

(** ** Further properties of the drawable list *)

Lemma draw_sort_sorted_tied (a b : DrawItem) :
  sameSortDepth a b = true <-> sortZ a == sortZ b.
Proof.
  unfold sameSortDepth, tied. rewrite andb_true_iff, !Qleb_le.
  split; [intros [H1 H2] | intros H; split]; lra.
Qed.

(** The list of drawables is built for every scene: every face of the
    star model indexes its vertices in range. *)
Lemma allObjects_length (st : Scene) :
  exists items,
    allObjects st = Some items
    /\ List.length items
       = (List.length (particlesRef st) + List.length (photoObjectsRef st)
          + (if truthy (zoomedPhotoIdRef st) then 0 else 20))%nat.
Proof.
  unfold allObjects.
  destruct (truthy (zoomedPhotoIdRef st)); cbn [negb bind].
  - eexists. split; [reflexivity|].
    rewrite !length_app, !length_map. lia.
  - destruct (starFaceItems_spec
                (map (transformVert (Math_cos (rotationRef st))
                                    (Math_sin (rotationRef st))
                                    (- Dimensions.height (dimensions st) / 2 - 20))
                     (fst STAR_MODEL))
                (snd STAR_MODEL)) as [faces [Hf1 Hf2]].
    { rewrite length_map, (proj1 STAR_MODEL_size).
      apply STAR_MODEL_faces_in_range. }
    rewrite Hf1. cbn [bind]. eexists. split; [reflexivity|].
    rewrite !length_app, !length_map, <- (Forall2_length Hf2).
    rewrite (proj2 STAR_MODEL_size). lia.
Qed.

(** X18.  [draw] never throws: every face of the star model indexes its
    vertices in range, so for every scene the list of drawables is built;
    it is empty without a canvas or a 2D context, and otherwise holds one
    item per particle, one per photo and, unless a photo is zoomed, 20
    star faces. *)
Theorem draw_never_throws (st : Scene) :
  exists items,
    draw st = Some items
    /\ List.length items
       = match canvasRef st with
         | Some canvas =>
           if Canvas.context2d canvas then
             (List.length (particlesRef st) + List.length (photoObjectsRef st)
              + (if truthy (zoomedPhotoIdRef st) then 0 else 20))%nat
           else 0%nat
         | None => 0%nat
         end.
Proof.
  unfold draw. destruct (canvasRef st) as [canvas|];
    [|exists []; split; reflexivity].
  destruct (Canvas.context2d canvas); cbn [negb];
    [|exists []; split; reflexivity].
  destruct (allObjects_length st) as [built [-> Hlen]]. cbn [bind].
  eexists. split; [reflexivity|].
  now rewrite (Permutation_length (Array_sort_perm _ _ _)).
Qed.

(** X19.  The drawing order is stable: among the drawables of one sort
    depth, the order is the order of building, particles in array order,
    then photos in array order, then star faces. *)
Theorem draw_keeps_build_order_on_ties (st : Scene) (canvas : Canvas.t) :
  canvasRef st = Some canvas ->
  Canvas.context2d canvas = true ->
  exists built items,
    allObjects st = Some built
    /\ draw st = Some items
    /\ (forall x,
           filter (sameSortDepth x) items = filter (sameSortDepth x) built)
    /\ (forall a b, sameSortDepth a b = true <-> sortZ a == sortZ b).
Proof.
  intros Hc Hctx.
  destruct (allObjects_length st) as [built [Hb _]].
  unfold draw. rewrite Hc, Hctx, Hb. cbn [negb bind].
  exists built. eexists. split; [reflexivity|]. split; [reflexivity|].
  split; [|apply draw_sort_sorted_tied].
  intros x. unfold sameSortDepth.
  apply Array_sort_stable with (R := fartherOrEqual).
  - intros a b. unfold fartherOrEqual. split; intros H; lra.
  - intros a b c. unfold fartherOrEqual. intros; lra.
Qed.

(** X20.  The hit test breaks ties by age: the candidates of one rotated
    depth are tried in the order of the photo array, so of two hit photos
    at the same depth the one that was added first is selected. *)
Theorem hit_test_keeps_photo_order_on_ties
    (cos sin : Q) (photos : list PhotoObject.t) (x : PhotoObject.t) :
  filter (sameRotatedDepth cos sin x) (candidates cos sin photos)
  = filter (sameRotatedDepth cos sin x)
           (filter (fun p => PhotoObject.opacity p >? 0.5) photos)
  /\ (forall a b,
         sameRotatedDepth cos sin a b = true
         <-> rotatedDepth cos sin a == rotatedDepth cos sin b).
Proof.
  split.
  - unfold sameRotatedDepth, candidates.
    apply Array_sort_stable with (R := nearerOrEqual cos sin).
    + intros a b. unfold nearerOrEqual. split; intros H; lra.
    + intros a b c. unfold nearerOrEqual. intros; lra.
  - intros a b. unfold sameRotatedDepth, tied.
    rewrite andb_true_iff, !Qleb_le. split; [intros [H1 H2] | intros H; split]; lra.
Qed.

(** ** The App and its photos *)

Lemma updatePhoto_img (zoomed : option string) (exploded : bool)
    (p : PhotoObject.t) :
  PhotoObject.img (updatePhoto zoomed exploded p) = PhotoObject.img p.
Proof.
  unfold updatePhoto.
  destruct (photoTarget zoomed exploded p) as [[[tx ty] tz] o]. reflexivity.
Qed.

Lemma Forall2_freshPhotoOf_img (imgs : list HTMLImageElement.t)
    (news : list PhotoObject.t) :
  Forall2 freshPhotoOf imgs news -> map PhotoObject.img news = imgs.
Proof.
  induction 1 as [|img p imgs news [Hi _] _ IH]; [reflexivity|].
  cbn [map]. now rewrite Hi, IH.
Qed.

Lemma appStep_photosMirrored (app : App.t) (e : AppEvent) :
  photosMirrored app -> photosMirrored (appStep app e).
Proof.
  unfold photosMirrored. intros H.
  destruct e; cbn [appStep App.photos App.tree step].
  - assert (Hcons : exists img' photos', App.photos app ++ [img] = img' :: photos')
      by (destruct (App.photos app) as [|a l]; cbn [List.app]; eauto).
    destruct Hcons as [img' [photos' Hcons]].
    destruct (syncPhotos_cons img' photos' (App.tree app)) as [news [Hs Hf]].
    rewrite <- Hcons in Hs, Hf. rewrite Hs.
    cbn [photoObjectsRef]. rewrite map_app, H.
    assert (Hlen : List.length (photoObjectsRef (App.tree app))
                   = List.length (App.photos app))
      by (rewrite <- H; now rewrite length_map).
    rewrite Hlen, skipn_app, skipn_all, Nat.sub_diag in Hf.
    cbn [skipn List.app] in Hf.
    apply Forall2_freshPhotoOf_img in Hf. now rewrite Hf.
  - reflexivity.
  - unfold updatePhysics. cbn [photoObjectsRef]. rewrite map_map, <- H.
    apply map_ext. intros p. apply updatePhoto_img.
  - destruct (onMouseDown_sameWorld clientX clientY button (App.tree app))
      as [_ [Hp _]].
    now rewrite Hp.
  - destruct (gestureEffect_sameWorld currentGesture gestureCursor
                                      (App.tree app)) as [_ [Hp _]].
    now rewrite Hp.
  - unfold handleResize. destruct (newParticles _ _ _ _ _). exact H.
Qed.

(** X21.  The photo objects mirror the uploads: after any sequence of
    image loads, clears, frames, clicks, gestures and resizes from the
    initial App, the component holds exactly one photo object per image of
    the [photos] state, in the order of arrival; a clear removes them
    all. *)
Theorem photo_objects_mirror_uploads (events : list AppEvent) :
  photosMirrored (appRun initialApp events)
  /\ (forall app,
         App.photos (appStep app ClearClicked) = []
         /\ photoObjectsRef (App.tree (appStep app ClearClicked)) = []
         /\ zoomedPhotoIdRef (App.tree (appStep app ClearClicked)) = None).
Proof.
  split; [|intros app; split; [|split]; reflexivity].
  assert (H : forall evs app,
             photosMirrored app -> photosMirrored (appRun app evs)).
  { induction evs as [|e evs IH]; intros app Happ; [exact Happ|].
    cbn [appRun fold_left]. apply IH. now apply appStep_photosMirrored. }
  apply H. reflexivity.
Qed.

(** ** Particles in range, in every reachable state *)

Lemma updateParticle_attributes (mobile exploded : bool) (p : Particle.t) :
  particleAttributesInRange mobile p ->
  particleAttributesInRange mobile (updateParticle exploded p).
Proof. intros H. exact H. Qed.

Lemma step_particlesInRange (st : Scene) (e : Event) :
  (forall k, 0 <= Math_random k /\ Math_random k < 1) ->
  particlesInRange st -> particlesInRange (step st e).
Proof.
  unfold particlesInRange. intros Hr H. destruct e; cbn [step].
  - unfold updatePhysics. cbn [particlesRef isMobile]. apply Forall_map.
    eapply Forall_impl; [|exact H]. intros p. apply updateParticle_attributes.
  - destruct (onMouseDown_sameWorld clientX clientY button st)
      as [Hp [_ [_ [_ [_ [Hmob _]]]]]].
    now rewrite Hp, Hmob.
  - destruct (gestureEffect_sameWorld currentGesture gestureCursor st)
      as [Hp [_ [_ [_ [_ [Hmob _]]]]]].
    now rewrite Hp, Hmob.
  - unfold syncPhotos.
    destruct (List.length photos =? 0)%nat; [exact H|].
    destruct (List.length (photoObjectsRef st) <? List.length photos)%nat;
      [|exact H].
    destruct (pushPhotos _ _ _). exact H.
  - unfold handleResize.
    pose proof (newParticles_attributes
                  (Dimensions.mk (if innerWidth <? 768 then 400 else 600)
                                 (if innerWidth <? 768 then 140 else 220))
                  (innerWidth <? 768) (PARTICLE_COUNT (innerWidth <? 768)) 0
                  (randomCalls st) Hr) as HR.
    destruct (newParticles _ _ _ _ _) as [ps n]. exact HR.
Qed.

(** X22.  When every draw of [Math.random] lies in [[0, 1)], in every
    state that the component reaches every particle has a defined palette
    colour (white for a sparkle), a variant that indexes [GIFT_PAIRS] and a
    size and twinkle speed within the ranges of its kind and of the current
    size class. *)
Theorem particles_in_range_in_every_state (events : list Event) :
  (forall k, 0 <= Math_random k /\ Math_random k < 1) ->
  particlesInRange (run initialScene events).
Proof.
  intros Hr.
  assert (H : forall evs st, particlesInRange st -> particlesInRange (run st evs)).
  { induction evs as [|e evs IH]; intros st Hst; [exact Hst|].
    cbn [run fold_left]. apply IH. now apply step_particlesInRange. }
  apply H. constructor.
Qed.

(** ** What the frame paints *)

Lemma applyOps_app (l1 l2 : list CanvasOp) (s : DrawingState * list DrawingState) :
  applyOps (l1 ++ l2) s = applyOps l2 (applyOps l1 s).
Proof. apply fold_left_app. Qed.

Lemma spritesDrawnPlain_app (l1 l2 : list CanvasOp) :
  forall s,
    spritesDrawnPlain l1 s -> spritesDrawnPlain l2 (applyOps l1 s) ->
    spritesDrawnPlain (l1 ++ l2) s.
Proof.
  induction l1 as [|op l1 IH]; intros s H1 H2; [exact H2|].
  cbn [app spritesDrawnPlain] in *. destruct H1 as [Hop H1].
  split; [exact Hop | now apply IH].
Qed.

Ltac run_ops :=
  repeat first
    [ progress cbn [applyOps fold_left applyOp spritesDrawnPlain fst snd
                    globalAlpha shadowBlur globalCompositeOperation]
    | progress change ((0 <=? 1) && (1 <=? 1)) with true
    | progress change (0 <=? 0) with true
    | match goal with
      | |- context [if (0 <=? ?v) && (?v <=? 1) then _ else _] =>
        destruct ((0 <=? v) && (v <=? 1))
      | |- context [if 0 <=? ?v then _ else _] => destruct (0 <=? v)
      end ].

(** One item, painted from the default state, leaves the default state,
    and its sprite is drawn plain. *)
Lemma paintItem_neutral (sprites : SpriteMap) (zoomed : option string)
    (time cx cy : Q) (item : DrawItem) (stack : list DrawingState) :
  applyOps (paintItem sprites zoomed time cx cy item)
           (defaultDrawingState, stack)
  = (defaultDrawingState, stack)
  /\ spritesDrawnPlain (paintItem sprites zoomed time cx cy item)
                       (defaultDrawingState, stack).
Proof.
  unfold defaultDrawingState.
  destruct item as [p rx ry rz s | p rx ry rz s | v0 v1 v2 [[r g] b] s];
    unfold paintItem.
  - destruct (FOCAL_LENGTH / (FOCAL_LENGTH + rz) <=? 0); [now split|].
    destruct (Particle.type p).
    + destruct (getProp sprites _); [|now split].
      cbv zeta. run_ops. change (existsb _ _) with true. cbv iota.
      run_ops. change (existsb _ _) with true. cbv iota. run_ops.
      repeat split; reflexivity.
    + destruct (getProp sprites _); [|now split].
      cbv zeta. run_ops. repeat split; reflexivity.
    + cbv zeta. destruct (_ >? 0); [|now split].
      run_ops; repeat split; reflexivity.
  - destruct (FOCAL_LENGTH / (FOCAL_LENGTH + rz) <=? 0); [now split|].
    cbv zeta. destruct (PhotoObject.opacity p <? 0.01); [now split|].
    run_ops; repeat split; reflexivity.
  - destruct (FOCAL_LENGTH / (FOCAL_LENGTH + s) <=? 0); [now split|].
    cbv zeta. run_ops; repeat split; reflexivity.
Qed.

Lemma paintItems_neutral (sprites : SpriteMap) (zoomed : option string)
    (time cx cy : Q) (items : list DrawItem) (stack : list DrawingState) :
  applyOps (flat_map (paintItem sprites zoomed time cx cy) items)
           (defaultDrawingState, stack)
  = (defaultDrawingState, stack)
  /\ spritesDrawnPlain (flat_map (paintItem sprites zoomed time cx cy) items)
                       (defaultDrawingState, stack).
Proof.
  induction items as [|item items [IH1 IH2]]; [now split|].
  cbn [flat_map].
  destruct (paintItem_neutral sprites zoomed time cx cy item stack) as [H1 H2].
  split.
  - now rewrite applyOps_app, H1.
  - apply spritesDrawnPlain_app; [exact H2 | now rewrite H1].
Qed.

Lemma paintCursor_neutral (canvas : Canvas.t) (c : option Cursor.t)
    (g : GestureType) (s : DrawingState * list DrawingState) :
  applyOps (paintCursor canvas c g) s = s
  /\ spritesDrawnPlain (paintCursor canvas c g) s.
Proof.
  destruct s as [now stack]. destruct c as [c|]; [|now split].
  unfold paintCursor. cbn [applyOps fold_left applyOp spritesDrawnPlain].
  repeat split.
Qed.

(** X23.  A frame never throws and leaves the 2D context as it found it:
    for every scene [draw] makes its calls to the end, and, painted from
    the default drawing state, every item, and so the whole frame with its
    cursor marker, ends with [globalAlpha] 1, [shadowBlur] 0,
    [globalCompositeOperation] 'source-over' and the [save] stack as it
    was, so no item's translucency, glow or blending leaks into the next;
    and every sprite is drawn at full alpha and without a shadow. *)
Theorem paint_leaves_context_neutral
    (sprites : SpriteMap) (time : Q) (gestureCursor : option Cursor.t)
    (currentGesture : GestureType) (st : Scene) (stack : list DrawingState) :
  exists ops,
    paint sprites time gestureCursor currentGesture st = Some ops
    /\ applyOps ops (defaultDrawingState, stack) = (defaultDrawingState, stack)
    /\ spritesDrawnPlain ops (defaultDrawingState, stack)
    /\ (forall zoomed cx cy item,
           applyOps (paintItem sprites zoomed time cx cy item)
                    (defaultDrawingState, stack)
           = (defaultDrawingState, stack)).
Proof.
  assert (Hitem : forall zoomed cx cy item,
             applyOps (paintItem sprites zoomed time cx cy item)
                      (defaultDrawingState, stack)
             = (defaultDrawingState, stack))
    by (intros; apply paintItem_neutral).
  unfold paint.
  destruct (canvasRef st) as [canvas|];
    [|exists []; repeat split; assumption].
  destruct (Canvas.context2d canvas); cbn [negb];
    [|exists []; repeat split; assumption].
  destruct (allObjects_length st) as [items [-> _]]. cbn [bind].
  eexists. split; [reflexivity|]. split; [|split; [|exact Hitem]].
  - change (applyOps (?op :: ?l) ?s) with (applyOps l (applyOp s op)).
    cbn [applyOp]. rewrite applyOps_app.
    rewrite (proj1 (paintItems_neutral _ _ _ _ _ _ _)).
    apply paintCursor_neutral.
  - cbn [spritesDrawnPlain applyOp]. split; [exact I|].
    apply spritesDrawnPlain_app; [apply paintItems_neutral|].
    apply paintCursor_neutral.
Qed.

Lemma initSprites_gold (c : string) :
  In c GOLDEN_PALETTE ->
  getProp initSprites ("gold-" ++ c) = Some (createGoldenSprite c).
Proof.
  intros H. cbn [GOLDEN_PALETTE In] in H.
  repeat (destruct H as [<- | H]; [vm_compute; reflexivity|]).
  contradiction.
Qed.

Lemma initSprites_gift (v : Z) :
  (0 <= v < Z.of_nat (List.length GIFT_PAIRS))%Z ->
  exists box ribbon,
    nth_error GIFT_PAIRS (Z.to_nat v) = Some (box, ribbon)
    /\ getProp initSprites ("gift-" ++ integerToString v)
       = Some (createGiftSprite box ribbon).
Proof.
  cbn [GIFT_PAIRS List.length]. intros H.
  assert (Hv : v = 0%Z \/ v = 1%Z \/ v = 2%Z \/ v = 3%Z) by lia.
  destruct Hv as [-> | [-> | [-> | ->]]];
    eexists; eexists; split; vm_compute; reflexivity.
Qed.

(** X24.  No sprite lookup misses: with the sprites of the asset effect,
    an ornament or a gift whose attributes are in range and that lies in
    front of the camera plane is painted with the sprite of its colour or
    of its variant, at 32 or 36 times its size and the perspective scale,
    centred on its projection. *)
Theorem ornaments_and_gifts_find_their_sprite
    (mobile : bool) (p : Particle.t) (zoomed : option string)
    (time cx cy cos sin : Q) :
  particleAttributesInRange mobile p ->
  Particle.type p <> SPARKLE ->
  let rx := Particle.x p * cos - Particle.z p * sin in
  let rz := Particle.z p * cos + Particle.x p * sin in
  let scale := FOCAL_LENGTH / (FOCAL_LENGTH + rz) in
  let size := (if ParticleType_eqb (Particle.type p) FLOWER then 32 else 36)
              * Particle.size p * scale in
  0 < scale ->
  exists sprite,
    In (DrawSprite sprite (rx * scale + cx - size / 2)
                   (Particle.y p * scale + cy - size / 2) size size)
       (paintItem initSprites zoomed time cx cy (particleItem cos sin p))
    /\ match Particle.type p with
       | FLOWER =>
         exists c, Particle.color p = Some c /\ sprite = createGoldenSprite c
       | GIFT =>
         exists box ribbon,
           nth_error GIFT_PAIRS (Z.to_nat (Particle.variant p))
           = Some (box, ribbon)
           /\ sprite = createGiftSprite box ribbon
       | SPARKLE => False
       end.
Proof.
  intros [_ [_ Hattr]] Hkind rx rz scale size Hscale.
  unfold particleItem, paintItem. fold rx rz scale.
  destruct (scale <=? 0) eqn:E; [apply Qleb_le in E; lra|].
  unfold size. destruct (Particle.type p); cbn [ParticleType_eqb].
  - destruct Hattr as [[c [Hc Hin]] _]. rewrite Hc. cbn [stringOrUndefined].
    rewrite (initSprites_gold c Hin). eexists. split.
    + right. left. reflexivity.
    + now exists c.
  - destruct Hattr as [_ [_ Hv]].
    destruct (initSprites_gift (Particle.variant p) Hv)
      as [box [ribbon [Hn Hg]]].
    rewrite Hg. eexists. split.
    + left. reflexivity.
    + now exists box, ribbon.
  - contradiction.
Qed.

(** X25.  What is clicked is what is seen: with no photo zoomed, a photo
    of opacity above 0.5 is hit by an input point exactly when the point
    lies within the frame rectangle that the frame strokes for it. *)
Theorem hit_area_is_painted_frame
    (sprites : SpriteMap) (time cx cy cos sin inputX inputY : Q)
    (p : PhotoObject.t) :
  0.5 < PhotoObject.opacity p ->
  hits cx cy cos sin inputX inputY p = true
  <-> exists x y w h,
      In (StrokeRect x y w h)
         (paintItem sprites None time cx cy (photoItem None cos sin p))
      /\ x <= inputX /\ inputX <= x + w /\ y <= inputY /\ inputY <= y + h.
Proof.
  intros Ho. rewrite hits_spec. cbv zeta.
  unfold photoItem, paintItem, rotatedDepth. cbn [strictEq].
  generalize (FOCAL_LENGTH
              / (FOCAL_LENGTH
                 + (PhotoObject.z p * cos + PhotoObject.x p * sin))).
  intros scale.
  destruct (scale <=? 0) eqn:E.
  - apply Qleb_le in E. split; [intros [H _]; lra|].
    intros [x [y [w [h [[] _]]]]].
  - apply Qleb_nle in E.
    destruct (PhotoObject.opacity p <? 0.01) eqn:E1;
      [apply Qltb_lt in E1; lra|].
    unfold Qdiv. change (/ 2) with (1 # 2).
    split.
    + intros [_ [H1 [H2 [H3 H4]]]].
      eexists. eexists. eexists. eexists. split.
      * do 5 right. left. reflexivity.
      * clear - H1 H2 H3 H4. repeat split; lra.
    + intros [x [y [w [h [Hin [H1 [H2 [H3 H4]]]]]]]].
      cbn [In] in Hin.
      repeat (destruct Hin as [Hin | Hin]; [try discriminate|]);
        [|contradiction].
      injection Hin as <- <- <- <-.
      split; [lra|]. clear - H1 H2 H3 H4. repeat split; lra.
Qed.

(** ** Gestures and the mode *)

(** X26.  Of the gestures only the closed fist collapses the tree.  An open
    palm explodes it and keeps everything else, a zoomed photo included;
    POINTING, NONE and a pinch without a cursor change nothing; and from an
    exploded tree every gesture but CLOSED_FIST leaves the tree exploded. *)
Theorem only_closed_fist_collapses
    (gestureCursor : option Cursor.t) (st : Scene) :
  gestureEffect OPEN_PALM gestureCursor st = onToggleExplode true st
  /\ gestureEffect POINTING gestureCursor st = st
  /\ gestureEffect NONE gestureCursor st = st
  /\ gestureEffect PINCH None st = st
  /\ (forall currentGesture,
         currentGesture <> CLOSED_FIST ->
         isExploded st = true ->
         isExploded (gestureEffect currentGesture gestureCursor st) = true).
Proof.
  split; [|split; [|split; [|split]]]; try reflexivity.
  - destruct st as [ps hs r z e c d m n]. unfold gestureEffect.
    cbn [GestureType_eqb andb isExploded]. now destruct e.
  - intros g Hg He. unfold gestureEffect. rewrite He.
    destruct g; cbn [GestureType_eqb andb negb]; try exact He;
      try congruence.
    destruct gestureCursor as [c|]; [|exact He].
    destruct (canvasRef st) as [canvas|]; [|exact He].
    unfold handleInteraction. rewrite He. cbn [negb].
    destruct (truthy (zoomedPhotoIdRef st)); [exact He|].
    destruct (canvasRef st); [|exact He].
    cbv zeta. destruct (truthy _); exact He.
Qed.

End Program.

(** ** The model on concrete inputs *)

(** The gesture table of the specification, run with [sqrt6]. *)

Example gesture_table_pinch :
  detectGesture unit sqrt6 (Some (sampleLandmarker (Some [sampleHand 0.03 0.5])))
                0 tt
  = Some (mkGestureResult PINCH (Some (Cursor.mk 0.5 (0.8 - 0.5))))
  /\ detectGesture unit sqrt6
                   (Some (sampleLandmarker (Some [sampleHand 0.03 0.15]))) 0 tt
     = Some (mkGestureResult PINCH (Some (Cursor.mk 0.5 (0.8 - 0.15)))).
Proof. split; vm_compute; reflexivity. Qed.

Example gesture_table_closed_fist :
  detectGesture unit sqrt6 (Some (sampleLandmarker (Some [sampleHand 0.2 0.15])))
                0 tt
  = Some (mkGestureResult CLOSED_FIST (Some (Cursor.mk 0.5 (0.8 - 0.15)))).
Proof. vm_compute. reflexivity. Qed.

Example gesture_table_open_palm :
  detectGesture unit sqrt6 (Some (sampleLandmarker (Some [sampleHand 0.2 0.5])))
                0 tt
  = Some (mkGestureResult OPEN_PALM (Some (Cursor.mk 0.5 (0.8 - 0.5)))).
Proof. vm_compute. reflexivity. Qed.

Example gesture_table_pointing :
  detectGesture unit sqrt6 (Some (sampleLandmarker (Some [sampleHand 0.2 0.3])))
                0 tt
  = Some (mkGestureResult POINTING (Some (Cursor.mk 0.5 (0.8 - 0.3)))).
Proof. vm_compute. reflexivity. Qed.

Example gesture_table_no_landmarks :
  detectGesture unit sqrt6 (Some (sampleLandmarker (Some []))) 0 tt
  = Some (mkGestureResult NONE None)
  /\ detectGesture unit sqrt6 (Some (sampleLandmarker None)) 0 tt
     = Some (mkGestureResult NONE None).
Proof. split; reflexivity. Qed.

(** The planar distance ignores the depth [z] of the landmarks. *)
Example planarDist_ignores_z :
  planarDist sqrt6 (HandLandmark.mk 0.5 0.5 0) (HandLandmark.mk 0.5 0.5 1) == 0.
Proof. vm_compute. reflexivity. Qed.

(** A hand with fewer than 21 landmarks makes [detectGesture] throw. *)
Example detectGesture_short_hand :
  detectGesture unit sqrt6
                (Some (sampleLandmarker (Some [firstn 20 (sampleHand 0.2 0.3)])))
                0 tt
  = None.
Proof. vm_compute. reflexivity. Qed.

(** The bound of 28 on the initial distance is the largest whole one:
    from 29 away the 200th step is still farther than 0.001, and so it is
    from the 450 units and more of a particle's explosion distance. *)
Example easing_200_steps_from_29 :
  0.001 < Qabs (0 - Nat.iter 200 (easeToward 0) 29).
Proof. rewrite iter_easeToward_distance. vm_compute. reflexivity. Qed.

Example easing_200_steps_from_450 :
  0.015 < Qabs (0 - Nat.iter 200 (easeToward 0) 450).
Proof. rewrite iter_easeToward_distance. vm_compute. reflexivity. Qed.

(** Nearest wins: a click inside the overlap of two photos selects the one
    of smaller rotated depth, though it comes second in the photo list. *)
Example overlap_click_selects_nearer :
  zoomedPhotoIdRef (handleInteraction cosT sinT 400 300 false overlapScene)
  = Some "near"%string.
Proof. vm_compute. reflexivity. Qed.

(** A click that hits no photo changes nothing. *)
Example click_outside_changes_nothing :
  handleInteraction cosT sinT 10 10 false overlapScene = overlapScene.
Proof. vm_compute. reflexivity. Qed.

(** ** Witnesses and counterexamples *)

Lemma detectGesture_classification_witness :
  exists g,
    detectGesture unit sqrt6
                  (Some (sampleLandmarker (Some [sampleHand 0.2 0.3]))) 0 tt
    = Some (mkGestureResult g (Some (Cursor.mk 0.5 (0.8 - 0.3))))
    /\ classified (planarDist sqrt6 (HandLandmark.mk (0.5 + 0.2) (0.8 - 0.3) 0)
                                     (HandLandmark.mk 0.5 (0.8 - 0.3) 0))
                  ((planarDist sqrt6 (HandLandmark.mk 0.5 (0.8 - 0.3) 0)
                                     (HandLandmark.mk 0.5 0.8 0)
                    + planarDist sqrt6 (HandLandmark.mk 0.5 (0.8 - 0.3) 0)
                                       (HandLandmark.mk 0.5 0.8 0)
                    + planarDist sqrt6 (HandLandmark.mk 0.5 (0.8 - 0.3) 0)
                                       (HandLandmark.mk 0.5 0.8 0)
                    + planarDist sqrt6 (HandLandmark.mk 0.5 (0.8 - 0.3) 0)
                                       (HandLandmark.mk 0.5 0.8 0)) / 4)
                  g.
Proof.
  pose proof (proj1 (detectGesture_classification
                       unit sqrt6
                       (sampleLandmarker (Some [sampleHand 0.2 0.3])) 0 tt)
                    (sampleHand 0.2 0.3) [] eq_refl eq_refl) as H.
  destruct H as [thumb [index [middle [ring [pinky [wrist [g H]]]]]]].
  destruct H as [Ht [Hi [Hm [Hr [Hp [Hw [Hd Hc]]]]]]].
  cbn [sampleHand nth_error] in Ht, Hi, Hm, Hr, Hp, Hw.
  inversion Ht; inversion Hi; inversion Hm; inversion Hr; inversion Hp;
    inversion Hw.
  subst thumb index middle ring pinky wrist.
  exists g. exact (conj Hd Hc).
Defined.

Lemma easing_converges_witness :
  Qabs (450 - Nat.iter 200 (easeToward 450) 430) < 0.001
  /\ Nat.iter 200 (easeToward 450) 430 <= 450.
Proof.
  destruct (easing_converges 450 430) as [_ [Hbelow [_ Hnear]]].
  split.
  - apply Hnear; [vm_compute; discriminate | lia].
  - apply (Hbelow 199%nat). vm_compute. discriminate.
Defined.

(** C3 as stated fails: while photo [a] is zoomed, the z of photo [b] is
    eased toward its [targetZ], not toward three times it. *)
Lemma other_photo_target_z_counterexample :
  zoomedPhotoIdRef zoomedScene = Some "a"%string
  /\ PhotoObject.id photoB <> "a"%string
  /\ nth_error (photoObjectsRef zoomedScene) 1 = Some photoB
  /\ exists p',
      nth_error (photoObjectsRef (updatePhysics zoomedScene)) 1 = Some p'
      /\ PhotoObject.z p' == 5
      /\ ~ PhotoObject.z p'
           == easeToward (PhotoObject.targetZ photoB * 3) (PhotoObject.z photoB).
Proof.
  split; [reflexivity|]. split; [discriminate|]. split; [reflexivity|].
  eexists. split; [reflexivity|]. split.
  - vm_compute. reflexivity.
  - intros H. vm_compute in H. discriminate.
Qed.

Lemma updatePhysics_photo_target_witness :
  exists p',
    nth_error (photoObjectsRef (updatePhysics zoomedScene)) 1 = Some p'
    /\ photoEasedToward (100 * 3) (200 * 3) 100 0 photoB p'.
Proof.
  destruct (updatePhysics_photo_target zoomedScene 1 photoB eq_refl)
    as [p' [Hp' [_ [Hother _]]]].
  exists p'. split; [exact Hp'|].
  apply (Hother "a"%string); [reflexivity | discriminate | discriminate].
Defined.

(** The test of the code is the strict [opacity > 0.5]: at an opacity of
    exactly one half, which no state that the component reaches has, a
    photo under the click is not selected. *)
Example half_opaque_photo_is_not_selected :
  isExploded halfOpaqueScene = true
  /\ zoomedPhotoIdRef halfOpaqueScene = None
  /\ In photoHalf (photoObjectsRef halfOpaqueScene)
  /\ 0.5 <= PhotoObject.opacity photoHalf
  /\ hits 400 300 (cosT 0) (sinT 0) 400 300 photoHalf = true
  /\ handleInteraction cosT sinT 400 300 false halfOpaqueScene
     = halfOpaqueScene.
Proof.
  split; [reflexivity|]. split; [reflexivity|]. split; [now left|].
  split; [vm_compute; discriminate|].
  split; vm_compute; reflexivity.
Qed.


(** The zoomed photo bypasses the rotation: at rotation 0.3 photo [a],
    zoomed at z = -550, is tagged with -550, its own z. *)
Example zoomed_photo_tagged_with_own_z :
  zoomedPhotoIdRef zoomedScene = Some (PhotoObject.id photoA)
  /\ exists items,
      draw sqrt6 cosT sinT samplePI zoomedScene = Some items
      /\ In (ItemPhoto photoA 0 0 (-550) (-550)) items
      /\ ~ -550 == PhotoObject.z photoA * cosT (rotationRef zoomedScene)
                   + PhotoObject.x photoA * sinT (rotationRef zoomedScene).
Proof.
  split; [reflexivity|]. eexists. split; [vm_compute; reflexivity|]. split.
  - right; right; left. reflexivity.
  - intros H. vm_compute in H. discriminate.
Qed.

Lemma draw_lists_by_descending_depth_witness :
  exists items faces,
    draw sqrt6 cosT sinT samplePI overlapScene = Some items
    /\ Permutation items
         (map (particleItem (cosT 0) (sinT 0)) [sampleParticle]
          ++ map (photoItem None (cosT 0) (sinT 0)) [photoFar; photoNear]
          ++ faces)
    /\ StronglySorted fartherOrEqual items
    /\ List.length faces = 20%nat.
Proof.
  destruct (draw_lists_by_descending_depth
              sqrt6 cosT sinT samplePI overlapScene sampleCanvas
              eq_refl eq_refl)
    as [items [faces [Hd [Hp [Hs [Hf _]]]]]].
  exists items, faces.
  split; [exact Hd|]. split; [exact Hp|]. split; [exact Hs|].
  exact (proj2 Hf).
Defined.

(** ** Witnesses of the further properties *)

Lemma sqrt6_comp (u v : Q) : u == v -> sqrt6 u == sqrt6 v.
Proof.
  intros H. unfold sqrt6.
  assert (E : Qfloor (u * 1000000000000) = Qfloor (v * 1000000000000))
    by (apply Qfloor_comp; now rewrite H).
  now rewrite E.
Qed.

Lemma sampleRandom_range (k : nat) :
  0 <= sampleRandom k /\ sampleRandom k < 1.
Proof.
  unfold sampleRandom, Qle, Qlt. cbn [Qnum Qden].
  pose proof (Nat.mod_upper_bound (k * 37) 100 ltac:(lia)). lia.
Qed.

Lemma detectGesture_throws_iff_short_hand_witness :
  detectGesture unit sqrt6 (Some (sampleLandmarker (Some [shortHand]))) 0 tt
  = None.
Proof.
  apply (proj2 (detectGesture_throws_iff_short_hand
                  unit sqrt6 (sampleLandmarker (Some [shortHand])) 0 tt
                  shortHand [] eq_refl)).
  cbn [shortHand List.length]. lia.
Defined.

Lemma detectGesture_cursor_null_iff_none_witness :
  cursor (mkGestureResult PINCH (Some (Cursor.mk 0.5 (0.8 - 0.5)))) = None
  <-> gesture (mkGestureResult PINCH (Some (Cursor.mk 0.5 (0.8 - 0.5)))) = NONE.
Proof.
  apply (detectGesture_cursor_null_iff_none
           unit sqrt6 (Some (sampleLandmarker (Some [sampleHand 0.03 0.5])))
           0 tt).
  vm_compute. reflexivity.
Defined.

Lemma detectGesture_reads_only_xy_of_first_hand_witness :
  detectGesture unit sqrt6
                (Some (sampleLandmarker (Some [sampleHand 0.2 0.3]))) 0 tt
  = detectGesture unit sqrt6
                  (Some (sampleLandmarker
                           (Some [deepHand 0.2 0.3; sampleHand 0.03 0.5])))
                  16 tt.
Proof.
  apply (detectGesture_reads_only_xy_of_first_hand
           unit sqrt6
           (sampleLandmarker (Some [sampleHand 0.2 0.3]))
           (sampleLandmarker (Some [deepHand 0.2 0.3; sampleHand 0.03 0.5]))
           0 16 tt tt
           (sampleHand 0.2 0.3) (deepHand 0.2 0.3) [] [sampleHand 0.03 0.5]
           eq_refl eq_refl eq_refl).
Defined.

Lemma detectGesture_translation_witness :
  detectGesture unit sqrt6
                (Some (sampleLandmarker
                         (Some [map (translate 0.1 (-0.2))
                                    (sampleHand 0.2 0.3)]))) 0 tt
  = option_map
      (fun r => mkGestureResult
                  (gesture r)
                  (option_map (translateCursor 0.1 (-0.2)) (cursor r)))
      (detectGesture unit sqrt6
                     (Some (sampleLandmarker (Some [sampleHand 0.2 0.3]))) 0 tt).
Proof.
  apply (detectGesture_translation
           unit sqrt6
           (sampleLandmarker (Some [sampleHand 0.2 0.3]))
           (sampleLandmarker
              (Some [map (translate 0.1 (-0.2)) (sampleHand 0.2 0.3)]))
           0 0 tt tt 0.1 (-0.2) (sampleHand 0.2 0.3) [] []
           sqrt6_comp eq_refl eq_refl).
Defined.

Lemma rebuilt_particles_start_at_rest_witness :
  exists p,
    nth_error
      (particlesRef
         (handleResize cosT sinT acosT powT samplePI sampleRandom
                       1024 (Some sampleCanvas) initialScene)) 7
    = Some p
    /\ Particle.x p = Particle.baseX p
    /\ Particle.y p = Particle.baseY p
    /\ Particle.z p = Particle.baseZ p.
Proof.
  destruct (nth_error
              (particlesRef
                 (handleResize cosT sinT acosT powT samplePI sampleRandom
                               1024 (Some sampleCanvas) initialScene)) 7)
    as [p|] eqn:E.
  - exists p. split; [reflexivity|].
    pose proof (rebuilt_particles_start_at_rest
                  cosT sinT acosT powT samplePI sampleRandom
                  1024 (Some sampleCanvas) initialScene 7%nat p E) as H.
    cbv zeta in H.
    exact (conj (proj1 H)
                (conj (proj1 (proj2 H)) (proj1 (proj2 (proj2 H))))).
  - exfalso. apply nth_error_None in E.
    pose proof (handleResize_shape
                  cosT sinT acosT powT samplePI sampleRandom
                  1024 (Some sampleCanvas) initialScene) as H.
    cbv zeta in H. destruct H as [Hm [Hl _]].
    rewrite Hl, Hm in E. change (1024 <? 768) with false in E.
    cbv iota in E. lia.
Defined.

Lemma rebuilt_particles_in_range_witness :
  Forall (particleAttributesInRange (1024 <? 768))
         (particlesRef
            (handleResize cosT sinT acosT powT samplePI sampleRandom
                          1024 (Some sampleCanvas) initialScene)).
Proof.
  exact (rebuilt_particles_in_range
           cosT sinT acosT powT samplePI sampleRandom
           1024 (Some sampleCanvas) initialScene sampleRandom_range).
Defined.

Lemma photos_hidden_until_exploded_witness :
  let st := run cosT sinT acosT powT samplePI sampleRandom sampleToString36
                initialScene
                [PhotosChanged [sampleImage]; Tick;
                 GestureChanged POINTING (Some (Cursor.mk 0.5 0.5));
                 MouseDown 400 300 2; Tick] in
  isExploded st = false
  /\ zoomedPhotoIdRef st = None
  /\ Forall hiddenAtCentre (photoObjectsRef st).
Proof.
  apply (photos_hidden_until_exploded
           cosT sinT acosT powT samplePI sampleRandom sampleToString36
           [PhotosChanged [sampleImage]; Tick;
            GestureChanged POINTING (Some (Cursor.mk 0.5 0.5));
            MouseDown 400 300 2; Tick]).
  repeat constructor; discriminate.
Defined.

Lemma photo_selectable_from_frame_14_witness :
  exists p',
    nth_error (photoObjectsRef (frames 14 explodedScene)) 0 = Some p'
    /\ (PhotoObject.opacity p' >? 0.5) = true.
Proof.
  destruct (photo_selectable_from_frame_14
              14 explodedScene 0 photoHidden eq_refl eq_refl eq_refl
              (Qeq_refl 0))
    as [p' [H1 [_ H3]]].
  exists p'. split; [exact H1|]. apply H3. lia.
Defined.

Lemma collapsed_tree_at_rest_is_stationary_witness :
  Forall2 samePlace (particlesRef restScene)
          (particlesRef (frames 100 restScene)).
Proof.
  apply (collapsed_tree_at_rest_is_stationary 100 restScene eq_refl).
  constructor; [|constructor].
  split; [|split]; reflexivity.
Defined.

Lemma frames_ease_photos_geometrically_witness :
  exists p',
    nth_error (photoObjectsRef (frames 3 zoomedScene)) 1 = Some p'
    /\ Qabs (300 - PhotoObject.x p')
       == decay 3 * Qabs (300 - PhotoObject.x photoB).
Proof.
  destruct (frames_ease_photos_geometrically 3 zoomedScene 1 photoB eq_refl)
    as [p' [H1 [_ H3]]].
  exists p'. split; [exact H1|].
  exact (proj1 (H3 300 600 100 0 eq_refl)).
Defined.

Lemma pinch_is_click_at_mirrored_cursor_witness :
  gestureEffect cosT sinT PINCH (Some (Cursor.mk 0.25 0.5)) overlapScene
  = onMouseDown cosT sinT
                (Canvas.rectLeft sampleCanvas
                 + (1 - 0.25) * Canvas.rectWidth sampleCanvas)
                (Canvas.rectTop sampleCanvas
                 + 0.5 * Canvas.rectHeight sampleCanvas)
                0 overlapScene.
Proof.
  apply (pinch_is_click_at_mirrored_cursor
           cosT sinT (Cursor.mk 0.25 0.5) sampleCanvas 0%Z overlapScene
           eq_refl).
  discriminate.
Defined.

Lemma draw_keeps_build_order_on_ties_witness :
  exists built items,
    allObjects sqrt6 cosT sinT samplePI overlapScene = Some built
    /\ draw sqrt6 cosT sinT samplePI overlapScene = Some items
    /\ forall x,
        filter (sameSortDepth x) items = filter (sameSortDepth x) built.
Proof.
  destruct (draw_keeps_build_order_on_ties
              sqrt6 cosT sinT samplePI overlapScene sampleCanvas
              eq_refl eq_refl)
    as [built [items [H1 [H2 [H3 _]]]]].
  exists built, items. exact (conj H1 (conj H2 H3)).
Defined.

Lemma particles_in_range_in_every_state_witness :
  particlesInRange
    (run cosT sinT acosT powT samplePI sampleRandom sampleToString36
         initialScene
         [WindowResize 1024 (Some sampleCanvas); Tick; MouseDown 400 300 0;
          WindowResize 500 (Some sampleCanvas); Tick]).
Proof.
  exact (particles_in_range_in_every_state
           cosT sinT acosT powT samplePI sampleRandom sampleToString36
           [WindowResize 1024 (Some sampleCanvas); Tick; MouseDown 400 300 0;
            WindowResize 500 (Some sampleCanvas); Tick]
           sampleRandom_range).
Defined.

Lemma ornaments_and_gifts_find_their_sprite_witness :
  exists sprite x y size,
    In (DrawSprite sprite x y size size)
       (paintItem sinT samplePI initSprites None 1000 400 300
                  (particleItem 1 0 sampleParticle))
    /\ sprite = createGoldenSprite "#FFD700".
Proof.
  assert (Hr : particleAttributesInRange false sampleParticle).
  { split; [|split; [|split; [|split; [|split]]]];
      try (vm_compute; (reflexivity || discriminate)).
    exists "#FFD700"%string. split; [reflexivity | now left]. }
  pose proof (ornaments_and_gifts_find_their_sprite
                sinT samplePI false sampleParticle None 1000 400 300 1 0
                Hr ltac:(discriminate)) as H.
  cbv zeta in H.
  destruct (H ltac:(vm_compute; reflexivity)) as [sprite [Hin Hs]].
  destruct Hs as [c [Hc ->]]. injection Hc as <-.
  eexists. eexists. eexists. eexists. split; [exact Hin | reflexivity].
Defined.

Lemma hit_area_is_painted_frame_witness :
  exists x y w h,
    In (StrokeRect x y w h)
       (paintItem sinT samplePI initSprites None 1000 400 300
                  (photoItem None 1 0 photoNear))
    /\ x <= 400 /\ 400 <= x + w /\ y <= 300 /\ 300 <= y + h.
Proof.
  apply (proj1 (hit_area_is_painted_frame
                  sinT samplePI initSprites 1000 400 300 1 0 400 300
                  photoNear ltac:(vm_compute; reflexivity))).
  vm_compute. reflexivity.
Defined.
